(** * andrei-consumo: the single-process energy estimator (consumo.cpp)

    A shallow embedding of [consumo.cpp] and of the metering engine that the
    project's documentation describes, followed by the properties stated
    about them.

    - machine integers are [Z] with the wrap-around written out;
    - [double] is IEEE 754 binary64, taken from the Standard Library's
      executable specification [SpecFloat] (precision 53, emax 1024,
      round to nearest, ties to even);
    - [main] is a small program over the Win32 and console calls it makes,
      run against an explicit description of what the operating system
      answers. *)

From Stdlib Require Import ZArith List String Ascii Bool Lia.
From Stdlib Require Import Floats.SpecFloat.
From Stdlib Require Import QArith.
From Stdlib Require Import Permutation.
Import ListNotations.

Local Open Scope string_scope.
Local Open Scope Z_scope.

(* ================================================================== *)
(** * Part I: the embedding *)
(* ================================================================== *)

(** ** Win32 integer types *)

Module Win32.

(** [DWORD] is an unsigned 32-bit integer, [ULONGLONG] an unsigned 64-bit
    integer. *)
Definition is_DWORD (x : Z) : Prop := 0 <= x < 2 ^ 32.
Definition is_ULONGLONG (x : Z) : Prop := 0 <= x < 2 ^ 64.

(** [FILETIME]: a count of 100 ns intervals, split in two [DWORD]s. *)
Record FILETIME := mkFILETIME {
  dwLowDateTime  : Z;
  dwHighDateTime : Z
}.

Definition wf_FILETIME (ft : FILETIME) : Prop :=
  is_DWORD (dwLowDateTime ft) /\ is_DWORD (dwHighDateTime ft).

(** The count that the system reports in a [FILETIME]: the 64-bit value
    whose high and low halves are the two fields. *)
Definition ticks (ft : FILETIME) : Z :=
  dwHighDateTime ft * 2 ^ 32 + dwLowDateTime ft.

(** [ULARGE_INTEGER] is a union: the 64-bit [QuadPart] shares its storage
    with the pair [LowPart] (bits 0..31) and [HighPart] (bits 32..63).
    The storage is modelled by the 64-bit value it holds; a store to one
    half keeps the other half. *)
Definition ULARGE_INTEGER := Z.

Definition low_mask  : Z := 0xFFFFFFFF.
Definition high_mask : Z := 0xFFFFFFFF00000000.

Definition set_LowPart (uli : ULARGE_INTEGER) (v : Z) : ULARGE_INTEGER :=
  Z.lor (Z.land uli high_mask) (Z.land v low_mask).

Definition set_HighPart (uli : ULARGE_INTEGER) (v : Z) : ULARGE_INTEGER :=
  Z.lor (Z.land uli low_mask) (Z.shiftl (Z.land v low_mask) 32).

Definition LowPart (uli : ULARGE_INTEGER) : Z := Z.land uli low_mask.
Definition HighPart (uli : ULARGE_INTEGER) : Z := Z.shiftr uli 32.
Definition QuadPart (uli : ULARGE_INTEGER) : Z := uli.

(** Unsigned 64-bit addition, as [kernelTime + userTime] performs it. *)
Definition add_ULONGLONG (x y : Z) : Z := (x + y) mod 2 ^ 64.

(** The two handles of [PROCESS_INFORMATION] that [main] uses. *)
Inductive HANDLE := hProcess | hThread.

(** What [GetProcessTimes] writes through its four out-pointers. *)
Record ProcessTimes := mkProcessTimes {
  ftCreation : FILETIME;
  ftExit     : FILETIME;
  ftKernel   : FILETIME;
  ftUser     : FILETIME
}.

End Win32.

Import Win32.

(** ** IEEE 754 binary64 *)

Module Double.

Definition prec : Z := 53.
Definition emax : Z := 1024.

Definition double := spec_float.

Definition mul : double -> double -> double := SFmul prec emax.
Definition div : double -> double -> double := SFdiv prec emax.
Definition leb : double -> double -> bool := SFleb.
Definition ltb : double -> double -> bool := SFltb.

(** A finite or infinite value of the format (every NaN is one value). *)
Definition valid (x : double) : bool := valid_binary prec emax x.

(** Conversion of an integer to [double], rounding to nearest even: what
    the usual arithmetic conversions do to the [ULONGLONG] operand of
    a division by a [double]. *)
Definition of_Z (n : Z) : double := binary_normalize prec emax n 0 false.

Definition zero : double := S754_zero false.

Definition is_finite (x : double) : bool :=
  match x with
  | S754_zero _ | S754_finite _ _ _ => true
  | _ => false
  end.

End Double.

Import Double.

(** ** fileTimeToULL *)

(** [ULONGLONG fileTimeToULL(const FILETIME &ft)].  The local [uli] is
    declared without an initialiser, so its storage starts with whatever
    the stack held: [uli0] stands for that content. *)
Definition fileTimeToULL (uli0 : ULARGE_INTEGER) (ft : FILETIME) : Z :=
  let uli := uli0 in
  let uli := set_LowPart uli (dwLowDateTime ft) in
  let uli := set_HighPart uli (dwHighDateTime ft) in
  QuadPart uli.

(** ** The arithmetic of [main] *)

(** The literal [10000000.0]. *)
Definition ticksPerSecond : double :=
  Eval cbv in of_Z 10000000.

(** [double totalTimeSeconds = (kernelTime + userTime) / 10000000.0;]
    the sum is an unsigned 64-bit sum, converted to [double] for the
    division. *)
Definition totalTimeSeconds (kernelTime userTime : Z) : double :=
  div (of_Z (add_ULONGLONG kernelTime userTime)) ticksPerSecond.

(** [const double potenciaEstimadaW = 50.0;] *)
Definition potenciaEstimadaW : double :=
  Eval cbv in of_Z 50.

(** The energy model: elapsed seconds times a power factor in watts. *)
Definition energy (elapsedSeconds powerFactor : double) : double :=
  mul elapsedSeconds powerFactor.

(** [double energiaJoules = totalTimeSeconds * potenciaEstimadaW;] *)
Definition energiaJoules (totalTimeSeconds : double) : double :=
  energy totalTimeSeconds potenciaEstimadaW.

(** ** Command line *)

(** [argc]/[argv] as the C runtime hands them to [main]: the program name
    [argv[0]] followed by the arguments.  Each entry is a C string. *)
Record Argv := mkArgv {
  argv0 : string;
  args  : list string
}.

Definition argc (a : Argv) : nat := S (List.length (args a)).

(** [argv[i]], for [i < argc]. *)
Definition argv_at (a : Argv) (i : nat) : string :=
  match i with
  | O => argv0 a
  | S j => nth j (args a) EmptyString
  end.

Definition space : ascii := " "%char.
Definition dquote : ascii := "034"%char.

(** [arg.find(' ') != std::string::npos] *)
Fixpoint has_space (arg : string) : bool :=
  match arg with
  | EmptyString => false
  | String c rest => if Ascii.eqb c space then true else has_space rest
  end.

(** One iteration of the loop body on the stream content [oss]. *)
Definition append_arg (a : Argv) (i : nat) (oss : string) : string :=
  let arg := argv_at a i in
  let oss :=
    if has_space arg
    then ((oss ++ String dquote EmptyString) ++ arg) ++ String dquote EmptyString
    else oss ++ arg in
  if (i <? argc a - 1)%nat then oss ++ String space EmptyString else oss.

(** [for (int i = 1; i < argc; ++i) { ... }]; [todo] counts the iterations
    that remain, [argc - i]. *)
Fixpoint build_loop (a : Argv) (todo i : nat) (oss : string) : string :=
  match todo with
  | O => oss
  | S todo' => build_loop a todo' (S i) (append_arg a i oss)
  end.

Definition commandLineStr (a : Argv) : string :=
  build_loop a (argc a - 1) 1 EmptyString.

Definition appName (a : Argv) : string := argv_at a 1.

(** The command line as the description words it: every argument with a
    space in double quotes, the others unchanged, joined by single
    spaces. *)
Definition quote_if_space (arg : string) : string :=
  if has_space arg
  then String dquote (arg ++ String dquote EmptyString)
  else arg.

Definition joined_command_line (a : Argv) : string :=
  String.concat (String space EmptyString) (map quote_if_space (args a)).

(** ** The program [main] *)

(** What is streamed to [std::cout] or [std::cerr] between two
    [std::endl].  [Buf p] is the C string behind a pointer that a system
    call may have set: [Some text] when it points to a buffer holding
    [text], [None] when the pointer was never given a value. *)
Inductive Piece :=
| Str (s : string)
| Dbl (d : double)
| Num (n : Z)
| Buf (p : option string).

(** The system and console calls of the program; the index is the type of
    the answer. *)
Inductive Call : Type -> Type :=
| Cout (line : list Piece) : Call unit
| Cerr (line : list Piece) : Call unit
| GetLastError : Call Z
| FormatMessageA (dwMessageId : Z) : Call (option string)
| LocalFree (hMem : option string) : Call unit
| CreateProcessA (lpApplicationName lpCommandLine : string) : Call bool
| WaitForSingleObject (h : HANDLE) : Call unit
| GetProcessTimes (h : HANDLE) : Call (option ProcessTimes)
| CloseHandle (h : HANDLE) : Call unit.

(** A terminating program over those calls. *)
Inductive Prog (R : Type) : Type :=
| Ret (r : R)
| Do {X : Type} (c : Call X) (k : X -> Prog R).

Arguments Ret {R} r.
Arguments Do {R X} c k.

Fixpoint bind {A B : Type} (p : Prog A) (k : A -> Prog B) : Prog B :=
  match p with
  | Ret a => k a
  | Do c k' => Do c (fun x => bind (k' x) k)
  end.

Definition call {X : Type} (c : Call X) : Prog X := Do c Ret.

Coercion call : Call >-> Prog.

Notation "x <- p ;; k" := (bind p (fun x => k))
  (at level 61, p at next level, right associativity).
Notation "p ;;; k" := (bind p (fun _ => k))
  (at level 61, right associativity).

Definition msg_usage_tail : string := " <programa> [argumentos]".
Definition msg_create_failed : string := "Error al crear el proceso.".
Definition msg_times_failed : string :=
  "Error al obtener los tiempos del proceso.".
Definition msg_launched : string := "Proceso lanzado: ".
Definition msg_cpu_time : string := "Tiempo total de CPU usado: ".
Definition msg_seconds : string := " segundos".
Definition msg_energy : string := "Consumo energético estimado: ".
Definition msg_joules : string := " Joules".

(** [void printLastError(const std::string &msg)].  The local
    [LPVOID lpMsgBuf] has no initialiser and the value that
    [FormatMessageA] returns is not looked at: after the call [lpMsgBuf]
    is the buffer that the call allocated, or still has no value when the
    call failed.  Either way it is streamed and handed to [LocalFree]. *)
Definition printLastError (msg : string) : Prog unit :=
  errCode <- GetLastError ;;
  lpMsgBuf <- FormatMessageA errCode ;;
  Cerr [Str msg; Str " Error "; Num errCode; Str ": "; Buf lpMsgBuf] ;;;
  LocalFree lpMsgBuf ;;;
  Ret tt.

Section Main.

(** The content of the uninitialised local [uli] on entry to
    [fileTimeToULL]. *)
Variable stack : ULARGE_INTEGER.

(** The end of [main], once the times of the process are known. *)
Definition report (pt : ProcessTimes) : Prog Z :=
  let kernelTime := fileTimeToULL stack (ftKernel pt) in
  let userTime := fileTimeToULL stack (ftUser pt) in
  let totalTimeSeconds := totalTimeSeconds kernelTime userTime in
  Cout [Str msg_cpu_time; Dbl totalTimeSeconds; Str msg_seconds] ;;;
  let energiaJoules := energiaJoules totalTimeSeconds in
  Cout [Str msg_energy; Dbl energiaJoules; Str msg_joules] ;;;
  CloseHandle hProcess ;;;
  CloseHandle hThread ;;;
  Ret 0.

(** [int main(int argc, char* argv[])] *)
Definition main (a : Argv) : Prog Z :=
  if (argc a <? 2)%nat then
    Cout [Str "Uso: "; Str (argv_at a 0); Str msg_usage_tail] ;;;
    Ret 1
  else
    let commandLineStr := commandLineStr a in
    let appName := appName a in
    created <- CreateProcessA appName commandLineStr ;;
    if negb created then
      printLastError msg_create_failed ;;;
      Ret 1
    else
      Cout [Str msg_launched; Str commandLineStr] ;;;
      WaitForSingleObject hProcess ;;;
      times <- GetProcessTimes hProcess ;;
      match times with
      | None =>
          printLastError msg_times_failed ;;;
          CloseHandle hProcess ;;;
          CloseHandle hThread ;;;
          Ret 1
      | Some pt => report pt
      end.

End Main.

(** ** Running a program against the operating system *)

(** What the operating system answers during one run. *)
Record World := mkWorld {
  (** does [CreateProcessA] succeed for this application and command line *)
  creates : string -> string -> bool;
  (** does the wait for the child return ([WaitForSingleObject] waits
      [INFINITE], so it does not when the child never exits) *)
  child_exits : bool;
  (** what [GetProcessTimes] gives; [None] when it fails *)
  times : option ProcessTimes;
  (** the code [GetLastError] gives after a failure *)
  last_error : Z;
  (** the buffer that [FormatMessageA] allocates for an error code, with
      the text of the system; [None] when the call fails (it returns 0 and
      stores nothing) *)
  system_message : Z -> option string
}.

(** One entry of the trace per call, with the answer where there is one. *)
Inductive Event :=
| EvCout (line : list Piece)
| EvCerr (line : list Piece)
| EvGetLastError (code : Z)
| EvFormatMessageA (dwMessageId : Z) (result : option string)
| EvLocalFree
| EvUndefined
| EvCreateProcessA (lpApplicationName lpCommandLine : string) (ok : bool)
| EvWait (h : HANDLE) (returned : bool)
| EvGetProcessTimes (h : HANDLE) (result : option ProcessTimes)
| EvCloseHandle (h : HANDLE).

(** Does a line read through a pointer that has no value. *)
Definition reads_uninitialised (line : list Piece) : bool :=
  existsb (fun p => match p with Buf None => true | _ => false end) line.

(** The answer to a call; [None] when the run has no defined continuation:
    the call never returns ([WaitForSingleObject] on a child that does not
    exit), or its behaviour is undefined (a pointer without a value is
    read or freed), which the trace records as [EvUndefined]. *)
Definition answer (w : World) {X : Type} (c : Call X) : Event * option X :=
  match c in Call X return Event * option X with
  | Cout line =>
      if reads_uninitialised line then (EvUndefined, None)
      else (EvCout line, Some tt)
  | Cerr line =>
      if reads_uninitialised line then (EvUndefined, None)
      else (EvCerr line, Some tt)
  | GetLastError => (EvGetLastError (last_error w), Some (last_error w))
  | FormatMessageA id =>
      (EvFormatMessageA id (system_message w id), Some (system_message w id))
  | LocalFree hMem =>
      match hMem with
      | Some _ => (EvLocalFree, Some tt)
      | None => (EvUndefined, None)
      end
  | CreateProcessA app cmd =>
      (EvCreateProcessA app cmd (creates w app cmd), Some (creates w app cmd))
  | WaitForSingleObject h =>
      (EvWait h (child_exits w), if child_exits w then Some tt else None)
  | GetProcessTimes h => (EvGetProcessTimes h (times w), Some (times w))
  | CloseHandle h => (EvCloseHandle h, Some tt)
  end.

(** The trace of a run and its exit code; no exit code when the program
    stays blocked in a call or runs into undefined behaviour. *)
Fixpoint run (w : World) {R : Type} (p : Prog R) : list Event * option R :=
  match p with
  | Ret r => ([], Some r)
  | Do c k =>
      match answer w c with
      | (ev, Some x) => let (t, r) := run w (k x) in (ev :: t, r)
      | (ev, None) => ([ev], None)
      end
  end.

(** The line that [printLastError msg] writes when the system has the
    text [text] for the error code. *)
Definition error_line (w : World) (msg text : string) : Event :=
  EvCerr [Str msg; Str " Error "; Num (last_error w); Str ": ";
          Buf (Some text)].

(** The trace of [printLastError msg] in that case. *)
Definition error_trace (w : World) (msg text : string) : list Event :=
  [EvGetLastError (last_error w);
   EvFormatMessageA (last_error w) (Some text);
   error_line w msg text;
   EvLocalFree].

(** The trace of [printLastError msg] when [FormatMessageA] fails: the
    pointer without a value is streamed. *)
Definition undefined_trace (w : World) : list Event :=
  [EvGetLastError (last_error w);
   EvFormatMessageA (last_error w) None;
   EvUndefined].

Definition is_undefined (e : Event) : bool :=
  match e with EvUndefined => true | _ => false end.

Definition trace_of {R : Type} (o : list Event * option R) := fst o.
Definition exit_code {R : Type} (o : list Event * option R) := snd o.

(** Observations on a trace. *)
Definition is_create (e : Event) : bool :=
  match e with EvCreateProcessA _ _ _ => true | _ => false end.


(** The energy figures reported, in order. *)
Definition energy_of (e : Event) : option (double * string) :=
  match e with
  | EvCout [Str label; Dbl d; Str unit] =>
      if String.eqb label msg_energy then Some (d, unit) else None
  | _ => None
  end.

Definition cpu_time_of (e : Event) : option double :=
  match e with
  | EvCout [Str label; Dbl d; Str _] =>
      if String.eqb label msg_cpu_time then Some d else None
  | _ => None
  end.

Fixpoint collect {A B : Type} (f : A -> option B) (l : list A) : list B :=
  match l with
  | [] => []
  | x :: l' =>
      match f x with
      | Some y => y :: collect f l'
      | None => collect f l'
      end
  end.

Definition energy_reports (t : list Event) : list (double * string) :=
  collect energy_of t.

Definition cpu_time_reports (t : list Event) : list double :=
  collect cpu_time_of t.

(** ** The unit of the description *)

(** The default [energyUnit] of the description, 1.3889e-8 MWh per second,
    as the nearest [double]. *)
Definition energyUnit : double :=
  Eval cbv in div (of_Z 13889) (of_Z 1000000000000).

(** An energy figure in MWh, as the description obtains it. *)
Definition energy_MWh (seconds : double) : double :=
  mul seconds energyUnit.

(** ** Rounding, arithmetically *)

(** The functions below say with [/] and [mod] what the shift-and-round
    steps of [SpecFloat] compute bit by bit; Part II proves that they
    agree. *)

(** [m / 2^n] rounded to the nearest integer, ties to even. *)
Definition round_shift (m n : Z) : Z :=
  let q := m / 2 ^ n in
  let r := m mod 2 ^ n in
  match 2 * r ?= 2 ^ n with
  | Lt => q
  | Eq => if Z.even q then q else q + 1
  | Gt => q + 1
  end.

(** Mantissa and exponent to which the exact value [m * 2^e] rounds: a
    shift down to the exponent of the format, then one more shift when
    the rounded mantissa has grown by a bit. *)
Definition round_exact (m e : Z) : Z * Z :=
  let n := Z.max 0 (fexp prec emax (Zdigits2 m + e) - e) in
  let m' := round_shift m n in
  let e' := e + n in
  let n' := Z.max 0 (fexp prec emax (Zdigits2 m' + e') - e') in
  (m' / 2 ^ n', e' + n').

(** The [double] with sign [s], mantissa [m] and exponent [e]; infinity
    when the exponent is beyond the format. *)
Definition pack (s : bool) (me : Z * Z) : double :=
  match fst me with
  | Z0 => S754_zero s
  | Zpos p =>
      if snd me <=? emax - prec then S754_finite s p (snd me)
      else S754_infinity s
  | Zneg _ => S754_nan
  end.

(** ** The metering engine of the description *)

Module Metering.

(** Modelled from the spec: the multi-process metering engine (Energy
    Model, Process Monitor, Monitor Registry / Aggregator) is not part of
    [consumo.cpp]; its records and operations follow sections 3 and 4 of
    the description.  Timestamps, durations and energies are exact
    rationals. *)
Record ProcessRecord := mkProcessRecord {
  identifier : Z;
  name       : string;
  firstSeen  : Q
}.

(** Modelled from the spec: the status of a MonitorState. *)
Inductive Status := Active | Stopped.

(** Modelled from the spec: MonitorState, one per ProcessRecord. *)
Record MonitorState := mkMonitorState {
  record      : ProcessRecord;
  accumulated : Q;
  lastSample  : Q;
  status      : Status
}.

(** Modelled from the spec: the Energy Model, time times a constant
    factor. *)
Definition energy (elapsedSeconds powerFactor : Q) : Q :=
  (elapsedSeconds * powerFactor)%Q.

(** Modelled from the spec: [elapsed = now - lastSample], a clock
    regression being clamped to 0. *)
Definition elapsed (now last : Q) : Q :=
  if Qle_bool last now then (now - last)%Q else 0%Q.

(** Modelled from the spec: the error kinds of section 7. *)
Inductive Error := SourceUnavailable | DuplicateMonitor | ClockRegression.

(** Modelled from the spec: is there a live monitor for this identifier. *)
Definition tracked (act : list MonitorState) (id : Z) : bool :=
  existsb (fun m => identifier (record m) =? id) act.

(** Modelled from the spec: [start(record, now)], which fails with
    DuplicateMonitor when the identifier already has an Active monitor. *)
Definition start (act : list MonitorState) (r : ProcessRecord) (now : Q)
  : Error + MonitorState :=
  if tracked act (identifier r) then inl DuplicateMonitor
  else inr (mkMonitorState r 0%Q now Active).

(** Modelled from the spec: [sample(now)]; a no-op on a Stopped monitor. *)
Definition sample (powerFactor now : Q) (m : MonitorState) : MonitorState :=
  match status m with
  | Stopped => m
  | Active =>
      mkMonitorState (record m)
        (accumulated m + energy (elapsed now (lastSample m)) powerFactor)%Q
        now Active
  end.

(** Modelled from the spec: [stop(now)], a final sample and then
    Stopped. *)
Definition stop (powerFactor now : Q) (m : MonitorState) : MonitorState :=
  let m' := sample powerFactor now m in
  mkMonitorState (record m') (accumulated m') (lastSample m') Stopped.

(** Modelled from the spec: a ProcessSnapshot, identifiers and names. *)
Definition Snapshot := list (Z * string).

(** Modelled from the spec: the Monitor Registry, the live monitors and
    the retained ("final") ones. *)
Record Registry := mkRegistry {
  active : list MonitorState;
  final  : list MonitorState
}.

(** Modelled from the spec: the registry before the first cycle. *)
Definition empty : Registry := mkRegistry [] [].

(** Modelled from the spec: is the identifier of a monitor in the
    snapshot. *)
Definition present (snapshot : Snapshot) (m : MonitorState) : bool :=
  existsb (fun p => fst p =? identifier (record m)) snapshot.

(** Modelled from the spec: "whose identifier is absent from snapshot". *)
Definition absent (snapshot : Snapshot) (m : MonitorState) : bool :=
  negb (present snapshot m).

(** Modelled from the spec: a monitor is started for each record of the
    snapshot that is not tracked yet, first seen [now]; an identifier that
    is tracked, or listed twice, is not started again. *)
Fixpoint start_new (snapshot : Snapshot) (now : Q) (act : list MonitorState)
  : list MonitorState :=
  match snapshot with
  | [] => []
  | p :: rest =>
      match start act (mkProcessRecord (fst p) (snd p) now) now with
      | inr m => m :: start_new rest now (m :: act)
      | inl _ => start_new rest now act
      end
  end.

(** Modelled from the spec: [reconcile(snapshot, now)].  Monitors whose
    identifier is absent are stopped and moved to the final set, the
    others are sampled, and new processes get a monitor. *)
Definition reconcile (powerFactor : Q) (snapshot : Snapshot) (now : Q)
  (reg : Registry) : Registry :=
  let gone := filter (absent snapshot) (active reg) in
  let kept := filter (present snapshot) (active reg) in
  mkRegistry
    (map (sample powerFactor now) kept ++ start_new snapshot now kept)
    (final reg ++ map (stop powerFactor now) gone).

(** Modelled from the spec: "the sum of accumulated". *)
Definition sumQ (l : list Q) : Q := fold_right Qplus 0%Q l.

(** Modelled from the spec: [totalEnergy()], the sum over every monitor,
    Active and Stopped. *)
Definition totalEnergy (reg : Registry) : Q :=
  sumQ (map accumulated (active reg ++ final reg)).

(** Modelled from the spec: [perProcessSnapshot()]. *)
Definition perProcessSnapshot (reg : Registry) : list (string * Z * Q) :=
  map (fun m => (name (record m), identifier (record m), accumulated m))
      (active reg ++ final reg).

(** Modelled from the spec: a session is a sequence of reconcile cycles,
    each with its snapshot and its time. *)
Definition Cycle := (Snapshot * Q)%type.

(** Modelled from the spec: the registry after the cycles of a session. *)
Fixpoint run_cycles (powerFactor : Q) (cycles : list Cycle) (reg : Registry)
  : Registry :=
  match cycles with
  | [] => reg
  | c :: rest =>
      run_cycles powerFactor rest (reconcile powerFactor (fst c) (snd c) reg)
  end.

(** Modelled from the spec: the "previously-removed monitors' final
    values", each monitor with the value it had when it was stopped. *)
Fixpoint removed_log (powerFactor : Q) (cycles : list Cycle) (reg : Registry)
  : list MonitorState :=
  match cycles with
  | [] => []
  | c :: rest =>
      map (stop powerFactor (snd c)) (filter (absent (fst c)) (active reg))
      ++ removed_log powerFactor rest
           (reconcile powerFactor (fst c) (snd c) reg)
  end.

(** Modelled from the spec: the records of "every Monitor ever
    created". *)
Fixpoint created_log (powerFactor : Q) (cycles : list Cycle) (reg : Registry)
  : list ProcessRecord :=
  match cycles with
  | [] => []
  | c :: rest =>
      map record
        (start_new (fst c) (snd c) (filter (present (fst c)) (active reg)))
      ++ created_log powerFactor rest
           (reconcile powerFactor (fst c) (snd c) reg)
  end.

(** Modelled from the spec: what a [sample] at [now] adds to a monitor. *)
Definition accrued (powerFactor now : Q) (m : MonitorState) : Q :=
  (accumulated (sample powerFactor now m) - accumulated m)%Q.

End Metering.

(** ** Resources and the C string buffer *)

(** The resources a run holds: the two handles that a successful
    [CreateProcessA] opens, and the buffer that [FormatMessageA] allocates
    ([FORMAT_MESSAGE_ALLOCATE_BUFFER]) and [LocalFree] releases. *)
Inductive Phase := NoProcess | Launched | Waited.

Record Resources := mkResources {
  phase        : Phase;
  process_open : bool;
  thread_open  : bool;
  buffer_held  : bool
}.

Definition no_resources : Resources := mkResources NoProcess false false false.

Definition handle_open (r : Resources) (h : HANDLE) : bool :=
  match h with
  | hProcess => process_open r
  | hThread => thread_open r
  end.

Definition close_handle (r : Resources) (h : HANDLE) : Resources :=
  match h with
  | hProcess => mkResources (phase r) false (thread_open r) (buffer_held r)
  | hThread => mkResources (phase r) (process_open r) false (buffer_held r)
  end.

(** The effect of one call on the resources; [None] when the call misuses
    them: a second process, a handle that is not open, the times of a
    process that was not waited for, a line on [std::cerr] (which streams
    the buffer) without the buffer, a buffer freed twice or leaked into a
    second allocation, a pointer without a value that is read or freed. *)
Definition resource_step (r : Resources) (e : Event) : option Resources :=
  match e with
  | EvCreateProcessA _ _ ok =>
      match phase r with
      | NoProcess =>
          Some (if ok then mkResources Launched true true (buffer_held r)
                else r)
      | _ => None
      end
  | EvWait h returned =>
      match phase r with
      | Launched =>
          if handle_open r h then
            Some (if returned
                  then mkResources Waited (process_open r) (thread_open r)
                         (buffer_held r)
                  else r)
          else None
      | _ => None
      end
  | EvGetProcessTimes h _ =>
      match phase r with
      | Waited => if handle_open r h then Some r else None
      | _ => None
      end
  | EvCloseHandle h =>
      if handle_open r h then Some (close_handle r h) else None
  | EvFormatMessageA _ (Some _) =>
      if buffer_held r then None
      else Some (mkResources (phase r) (process_open r) (thread_open r) true)
  | EvFormatMessageA _ None => Some r
  | EvLocalFree =>
      if buffer_held r
      then Some (mkResources (phase r) (process_open r) (thread_open r) false)
      else None
  | EvCerr _ => if buffer_held r then Some r else None
  | EvCout _ | EvGetLastError _ => Some r
  | EvUndefined => None
  end.

Fixpoint resource_run (r : Resources) (tr : list Event) : option Resources :=
  match tr with
  | [] => Some r
  | e :: tr' =>
      match resource_step r e with
      | Some r' => resource_run r' tr'
      | None => None
      end
  end.

Definition NUL : ascii := "000"%char.

(** [strlen]: the characters before the first NUL. *)
Fixpoint strlen (s : string) : nat :=
  match s with
  | EmptyString => O
  | String c rest => if Ascii.eqb c NUL then O else S (strlen rest)
  end.

(** What a reader of the C string [s.c_str()] sees. *)
Fixpoint c_str (s : string) : string :=
  match s with
  | EmptyString => EmptyString
  | String c rest =>
      if Ascii.eqb c NUL then EmptyString else String c (c_str rest)
  end.

(** [strcpy_s(dest, destsz, src)]: the content of [dest] afterwards, or
    [None] when [src] with its terminator does not fit in [destsz]
    characters (a runtime-constraint violation). *)
Definition strcpy_s (destsz : nat) (src : string) : option string :=
  if (strlen src <? destsz)%nat then Some (c_str src) else None.

(** [char* cmdLine = new char[commandLineStr.size() + 1];
     strcpy_s(cmdLine, commandLineStr.size() + 1, commandLineStr.c_str());] *)
Definition cmdLine (a : Argv) : option string :=
  strcpy_s (String.length (commandLineStr a) + 1) (commandLineStr a).

(** Does a string contain the character [c]. *)
Fixpoint has_char (c : ascii) (s : string) : bool :=
  match s with
  | EmptyString => false
  | String c' rest => if Ascii.eqb c' c then true else has_char c rest
  end.

(** Every number that a run prints, in order. *)
Definition doubles_of_line (line : list Piece) : list double :=
  collect (fun p => match p with Dbl d => Some d | _ => None end) line.

Definition printed_doubles (tr : list Event) : list double :=
  flat_map (fun e => match e with
                     | EvCout line | EvCerr line => doubles_of_line line
                     | _ => []
                     end) tr.

(** ** Division, arithmetically *)

(** [N / D] rounded to the nearest integer, ties to even. *)
Definition round_div (N D : Z) : Z :=
  let q := N / D in
  let r := N mod D in
  match 2 * r ?= D with
  | Lt => q
  | Eq => if Z.even q then q else q + 1
  | Gt => q + 1
  end.

(** Mantissa and exponent to which the exact quotient [(N / D) * 2^e]
    rounds, for a quotient of at least 53 bits. *)
Definition round_quotient (N D e : Z) : Z * Z :=
  let k := Zdigits2 (N / D) - 53 in
  let M := round_div N (D * 2 ^ k) in
  if M =? 2 ^ 53 then (2 ^ 52, e + k + 1) else (M, e + k).

(* ================================================================== *)
(** * Part II: properties *)
(* ================================================================== *)

(** ** fileTimeToULL *)

Section FileTimeFacts.

Lemma land_low_mask (x : Z) : Z.land x low_mask = x mod 2 ^ 32.
Proof.
  change low_mask with (Z.ones 32). now rewrite Z.land_ones by lia.
Qed.

Lemma land_low_mask_small (x : Z) : is_DWORD x -> Z.land x low_mask = x.
Proof.
  intros H. rewrite land_low_mask. apply Z.mod_small. exact H.
Qed.

Lemma testbit_low_mask (i : Z) :
  0 <= i -> Z.testbit low_mask i = (i <? 32).
Proof.
  intros Hi. change low_mask with (Z.ones 32).
  destruct (Z.ltb_spec i 32).
  - apply Z.ones_spec_low; lia.
  - apply Z.ones_spec_high; lia.
Qed.

Lemma testbit_high_mask (i : Z) :
  0 <= i -> Z.testbit high_mask i = (32 <=? i) && (i <? 64).
Proof.
  intros Hi. change high_mask with (Z.shiftl (Z.ones 32) 32).
  rewrite Z.shiftl_spec by lia.
  destruct (Z.leb_spec 32 i); simpl.
  - destruct (Z.ltb_spec i 64).
    + apply Z.ones_spec_low; lia.
    + apply Z.ones_spec_high; lia.
  - apply Z.testbit_neg_r; lia.
Qed.

(** The two stores overwrite every bit of the uninitialised storage. *)
Lemma fileTimeToULL_bits (uli0 : Z) (ft : FILETIME) :
  fileTimeToULL uli0 ft =
  Z.lor (Z.land (dwLowDateTime ft) low_mask)
        (Z.shiftl (Z.land (dwHighDateTime ft) low_mask) 32).
Proof.
  unfold fileTimeToULL, QuadPart, set_HighPart, set_LowPart.
  f_equal.
  apply Z.bits_inj'; intros i Hi.
  rewrite !Z.land_spec, Z.lor_spec, !Z.land_spec.
  rewrite testbit_low_mask, testbit_high_mask by assumption.
  destruct (Z.ltb_spec i 32); destruct (Z.leb_spec 32 i); try lia;
    simpl; rewrite ?andb_false_r, ?andb_true_r, ?orb_false_l; reflexivity.
Qed.

Lemma fileTimeToULL_stack_irrelevant (uli1 uli2 : Z) (ft : FILETIME) :
  fileTimeToULL uli1 ft = fileTimeToULL uli2 ft.
Proof. now rewrite !fileTimeToULL_bits. Qed.

Lemma lor_shiftl_32 (lo hi : Z) :
  is_DWORD lo -> 0 <= hi -> Z.lor lo (Z.shiftl hi 32) = hi * 2 ^ 32 + lo.
Proof.
  intros Hlo Hhi.
  rewrite Z.shiftl_mul_pow2 by lia.
  assert (Hdisj : Z.land lo (hi * 2 ^ 32) = 0);
    [|pose proof (Z.add_lor_land lo (hi * 2 ^ 32)); lia].
  apply Z.bits_inj'; intros i Hi.
  rewrite Z.land_spec, Z.bits_0.
  destruct (Z.ltb_spec i 32).
  - rewrite Z.mul_pow2_bits_low by lia. apply andb_false_r.
  - replace (Z.testbit lo i) with false; [reflexivity|].
    symmetry. destruct (Z.eq_dec lo 0) as [->|Hne]; [apply Z.bits_0|].
    apply Z.bits_above_log2; [apply Hlo|].
    assert (Z.log2 lo < 32); [|lia].
    apply Z.log2_lt_pow2; unfold is_DWORD in Hlo; lia.
Qed.

Lemma fileTimeToULL_value (uli0 : Z) (ft : FILETIME) :
  wf_FILETIME ft ->
  fileTimeToULL uli0 ft = dwHighDateTime ft * 2 ^ 32 + dwLowDateTime ft.
Proof.
  intros [Hlo Hhi].
  rewrite fileTimeToULL_bits, !land_low_mask_small by assumption.
  apply lor_shiftl_32; [assumption | apply Hhi].
Qed.

End FileTimeFacts.

(** C10. For every [FILETIME] (two 32-bit halves) and whatever the local
    union held before, [fileTimeToULL] returns
    [dwHighDateTime * 2^32 + dwLowDateTime]; the result fits 64 bits and
    both halves can be read back from it, so nothing is lost. *)
Theorem fileTimeToULL_reassembles (uli0 : Z) (ft : FILETIME) :
  wf_FILETIME ft ->
  fileTimeToULL uli0 ft = dwHighDateTime ft * 2 ^ 32 + dwLowDateTime ft
  /\ is_ULONGLONG (fileTimeToULL uli0 ft)
  /\ HighPart (fileTimeToULL uli0 ft) = dwHighDateTime ft
  /\ LowPart (fileTimeToULL uli0 ft) = dwLowDateTime ft.
Proof.
  intros Hwf. rewrite (fileTimeToULL_value uli0 ft Hwf).
  destruct Hwf as [Hlo Hhi]. unfold is_DWORD, is_ULONGLONG in *.
  unfold HighPart, LowPart.
  rewrite land_low_mask, Z.shiftr_div_pow2 by lia.
  repeat split; try lia.
  - rewrite Z.div_add_l by lia. rewrite Z.div_small by lia. lia.
  - rewrite Z.add_comm, Z.mod_add by lia. apply Z.mod_small; lia.
Qed.

Lemma fileTimeToULL_reassembles_witness :
  let ft := mkFILETIME 0x9ABCDEF0 0x12345678 in
  let uli0 := 0xDEADBEEFDEADBEEF in
  wf_FILETIME ft
  /\ fileTimeToULL uli0 ft = 0x12345678 * 2 ^ 32 + 0x9ABCDEF0
  /\ is_ULONGLONG (fileTimeToULL uli0 ft)
  /\ HighPart (fileTimeToULL uli0 ft) = 0x12345678
  /\ LowPart (fileTimeToULL uli0 ft) = 0x9ABCDEF0.
Proof.
  intros ft uli0.
  assert (Hwf : wf_FILETIME ft) by (split; simpl; unfold is_DWORD; lia).
  split; [exact Hwf|].
  exact (fileTimeToULL_reassembles uli0 ft Hwf).
Defined.

(** ** The command line *)

Section CommandLine.

Lemma append_nil_r (s : string) : s ++ EmptyString = s.
Proof. induction s; simpl; congruence. Qed.

Lemma append_assoc (s t u : string) : (s ++ t) ++ u = s ++ (t ++ u).
Proof. induction s; simpl; congruence. Qed.

Lemma quote_if_space_append (oss arg : string) :
  (if has_space arg
   then ((oss ++ String dquote EmptyString) ++ arg) ++ String dquote EmptyString
   else oss ++ arg)
  = oss ++ quote_if_space arg.
Proof.
  unfold quote_if_space. destruct (has_space arg); [|reflexivity].
  rewrite !append_assoc. reflexivity.
Qed.

(** The loop from index [S j] on, over the arguments that remain. *)
Lemma build_loop_joined (a : Argv) (todo j : nat) (oss : string) :
  (j + todo = List.length (args a))%nat ->
  build_loop a todo (S j) oss
  = oss ++ String.concat (String space EmptyString)
             (map quote_if_space (skipn j (args a))).
Proof.
  revert j oss. induction todo as [|todo IH]; intros j oss Hlen.
  - simpl. rewrite skipn_all2 by lia. simpl. now rewrite append_nil_r.
  - cbn [build_loop]. rewrite IH by lia.
    unfold append_arg, argc. cbn [argv_at].
    rewrite quote_if_space_append.
    assert (Hj : (j < List.length (args a))%nat) by lia.
    destruct (skipn j (args a)) as [|x rest] eqn:Hskip.
    { apply (f_equal (@List.length string)) in Hskip.
      rewrite length_skipn in Hskip. simpl in Hskip. lia. }
    assert (Hnth : nth j (args a) EmptyString = x).
    { rewrite <- (firstn_skipn j (args a)) at 1.
      rewrite app_nth2; rewrite length_firstn, Nat.min_l by lia; [|lia].
      rewrite Nat.sub_diag, Hskip. reflexivity. }
    assert (Hrest : skipn (S j) (args a) = rest).
    { replace (S j) with (1 + j)%nat by lia.
      rewrite <- skipn_skipn, Hskip. reflexivity. }
    rewrite Hnth, Hrest.
    assert (Hlenrest : List.length rest = todo).
    { rewrite <- Hrest, length_skipn. lia. }
    replace (S (List.length (args a)) - 1)%nat with (List.length (args a)) by lia.
    destruct rest as [|y rest'].
    + simpl in Hlenrest. subst todo.
      replace (S j <? List.length (args a))%nat with false
        by (symmetry; apply Nat.ltb_ge; lia).
      simpl. now rewrite append_nil_r.
    + simpl in Hlenrest.
      replace (S j <? List.length (args a))%nat with true
        by (symmetry; apply Nat.ltb_lt; lia).
      cbn [map String.concat]. rewrite !append_assoc. reflexivity.
Qed.

Lemma commandLineStr_joined (a : Argv) :
  commandLineStr a = joined_command_line a.
Proof.
  unfold commandLineStr, joined_command_line, argc.
  rewrite build_loop_joined by (simpl; lia).
  reflexivity.
Qed.

End CommandLine.

(** ** The runs of [main] *)

(** One step of a run: the next call and its answer. *)
Ltac run_step :=
  cbn [run bind call answer negb printLastError reads_uninitialised existsb
       orb].

Section Runs.

Variable stack : ULARGE_INTEGER.
Variable w : World.
Variable a : Argv.

Local Abbreviation app := (appName a).
Local Abbreviation cmd := (commandLineStr a).

Lemma argc_lt_2 : (argc a < 2)%nat <-> args a = [].
Proof.
  unfold argc. destruct (args a); simpl; split; intros; try lia; congruence.
Qed.

Lemma run_usage :
  (argc a < 2)%nat ->
  run w (main stack a)
  = ([EvCout [Str "Uso: "; Str (argv0 a); Str msg_usage_tail]], Some 1).
Proof.
  intros H. unfold main.
  apply Nat.ltb_lt in H. rewrite H. reflexivity.
Qed.

Lemma run_create_failed (text : string) :
  (2 <= argc a)%nat ->
  creates w app cmd = false ->
  system_message w (last_error w) = Some text ->
  run w (main stack a)
  = (EvCreateProcessA app cmd false :: error_trace w msg_create_failed text,
     Some 1).
Proof.
  intros H Hc Hm. unfold main.
  apply Nat.ltb_ge in H. rewrite H.
  run_step. rewrite Hc. run_step. rewrite Hm. reflexivity.
Qed.

Lemma run_create_undefined :
  (2 <= argc a)%nat ->
  creates w app cmd = false ->
  system_message w (last_error w) = None ->
  run w (main stack a)
  = (EvCreateProcessA app cmd false :: undefined_trace w, None).
Proof.
  intros H Hc Hm. unfold main.
  apply Nat.ltb_ge in H. rewrite H.
  run_step. rewrite Hc. run_step. rewrite Hm. reflexivity.
Qed.

Lemma run_blocked :
  (2 <= argc a)%nat ->
  creates w app cmd = true ->
  child_exits w = false ->
  run w (main stack a)
  = ([EvCreateProcessA app cmd true;
      EvCout [Str msg_launched; Str cmd];
      EvWait hProcess false],
     None).
Proof.
  intros H Hc He. unfold main.
  apply Nat.ltb_ge in H. rewrite H.
  run_step. rewrite Hc. run_step. rewrite He. reflexivity.
Qed.

Lemma run_times_failed (text : string) :
  (2 <= argc a)%nat ->
  creates w app cmd = true ->
  child_exits w = true ->
  times w = None ->
  system_message w (last_error w) = Some text ->
  run w (main stack a)
  = ([EvCreateProcessA app cmd true;
      EvCout [Str msg_launched; Str cmd];
      EvWait hProcess true;
      EvGetProcessTimes hProcess None]
     ++ error_trace w msg_times_failed text
     ++ [EvCloseHandle hProcess; EvCloseHandle hThread],
     Some 1)%list.
Proof.
  intros H Hc He Ht Hm. unfold main.
  apply Nat.ltb_ge in H. rewrite H.
  run_step. rewrite Hc. run_step. rewrite He. run_step. rewrite Ht.
  run_step. rewrite Hm. reflexivity.
Qed.

Lemma run_times_undefined :
  (2 <= argc a)%nat ->
  creates w app cmd = true ->
  child_exits w = true ->
  times w = None ->
  system_message w (last_error w) = None ->
  run w (main stack a)
  = ([EvCreateProcessA app cmd true;
      EvCout [Str msg_launched; Str cmd];
      EvWait hProcess true;
      EvGetProcessTimes hProcess None]
     ++ undefined_trace w,
     None)%list.
Proof.
  intros H Hc He Ht Hm. unfold main.
  apply Nat.ltb_ge in H. rewrite H.
  run_step. rewrite Hc. run_step. rewrite He. run_step. rewrite Ht.
  run_step. rewrite Hm. reflexivity.
Qed.

Lemma run_report (pt : ProcessTimes) :
  (2 <= argc a)%nat ->
  creates w app cmd = true ->
  child_exits w = true ->
  times w = Some pt ->
  let t := totalTimeSeconds (fileTimeToULL stack (ftKernel pt))
                            (fileTimeToULL stack (ftUser pt)) in
  run w (main stack a)
  = ([EvCreateProcessA app cmd true;
      EvCout [Str msg_launched; Str cmd];
      EvWait hProcess true;
      EvGetProcessTimes hProcess (Some pt);
      EvCout [Str msg_cpu_time; Dbl t; Str msg_seconds];
      EvCout [Str msg_energy; Dbl (energiaJoules t); Str msg_joules];
      EvCloseHandle hProcess;
      EvCloseHandle hThread],
     Some 0).
Proof.
  intros H Hc He Ht. unfold main.
  apply Nat.ltb_ge in H. rewrite H.
  run_step. rewrite Hc. run_step. rewrite He. run_step. rewrite Ht.
  reflexivity.
Qed.

(** Every run is one of the seven above. *)
Lemma run_cases :
  (argc a < 2)%nat
  \/ (exists text, (2 <= argc a)%nat /\ creates w app cmd = false
      /\ system_message w (last_error w) = Some text)
  \/ ((2 <= argc a)%nat /\ creates w app cmd = false
      /\ system_message w (last_error w) = None)
  \/ ((2 <= argc a)%nat /\ creates w app cmd = true
      /\ child_exits w = false)
  \/ (exists text, (2 <= argc a)%nat /\ creates w app cmd = true
      /\ child_exits w = true /\ times w = None
      /\ system_message w (last_error w) = Some text)
  \/ ((2 <= argc a)%nat /\ creates w app cmd = true
      /\ child_exits w = true /\ times w = None
      /\ system_message w (last_error w) = None)
  \/ (exists pt, (2 <= argc a)%nat /\ creates w app cmd = true
      /\ child_exits w = true /\ times w = Some pt).
Proof.
  destruct (Nat.lt_ge_cases (argc a) 2) as [H|H]; [now left|right].
  destruct (system_message w (last_error w)) as [text|] eqn:Hm.
  - destruct (creates w app cmd) eqn:Hc; [right; right|left; now exists text].
    destruct (child_exits w) eqn:He; [right|now left].
    destruct (times w) as [pt|] eqn:Ht.
    + right; right. now exists pt.
    + left. now exists text.
  - destruct (creates w app cmd) eqn:Hc; [right; right|right; now left].
    destruct (child_exits w) eqn:He; [right|now left].
    destruct (times w) as [pt|] eqn:Ht.
    + right; right. now exists pt.
    + right; now left.
Qed.

End Runs.

(** Case analysis on the run of [main stack a] in the world [w]: the run
    is replaced by its trace and exit code in each of the seven cases. *)
Ltac run_cases_of stack w a :=
  destruct (run_cases w a)
    as [HA|[[text [HA [HC HM]]]|[[HA [HC HM]]|[[HA [HC HE]]
       |[[text [HA [HC [HE [HT HM]]]]]|[[HA [HC [HE [HT HM]]]]
       |[pt [HA [HC [HE HT]]]]]]]]]];
    [ rewrite (run_usage stack w a HA)
    | rewrite (run_create_failed stack w a text HA HC HM)
    | rewrite (run_create_undefined stack w a HA HC HM)
    | rewrite (run_blocked stack w a HA HC HE)
    | rewrite (run_times_failed stack w a text HA HC HE HT HM)
    | rewrite (run_times_undefined stack w a HA HC HE HT HM)
    | rewrite (run_report stack w a pt HA HC HE HT) ].

Section ReportTrace.

Variables (app cmd : string) (pt : ProcessTimes) (t e : double).

Local Abbreviation report_trace :=
  [EvCreateProcessA app cmd true;
   EvCout [Str msg_launched; Str cmd];
   EvWait hProcess true;
   EvGetProcessTimes hProcess (Some pt);
   EvCout [Str msg_cpu_time; Dbl t; Str msg_seconds];
   EvCout [Str msg_energy; Dbl e; Str msg_joules];
   EvCloseHandle hProcess;
   EvCloseHandle hThread].

Lemma energy_reports_report : energy_reports report_trace = [(e, msg_joules)].
Proof. reflexivity. Qed.

Lemma cpu_time_reports_report : cpu_time_reports report_trace = [t].
Proof. reflexivity. Qed.

End ReportTrace.



(** C9. For [argc >= 2] the one [CreateProcessA] call of a run receives
    [argv[1]] as the executable path and, as the command line,
    [argv[1] .. argv[argc-1]] joined by single spaces, each argument that
    contains a space between double quotes and every other one unchanged. *)
Theorem command_line_joined (stack : ULARGE_INTEGER) (w : World) (a : Argv) :
  (2 <= argc a)%nat ->
  commandLineStr a
  = String.concat (String space EmptyString) (map quote_if_space (args a))
  /\ (forall arg, has_space arg = true ->
        quote_if_space arg
        = String dquote EmptyString ++ arg ++ String dquote EmptyString)
  /\ (forall arg, has_space arg = false -> quote_if_space arg = arg)
  /\ appName a = argv_at a 1
  /\ filter is_create (trace_of (run w (main stack a)))
     = [EvCreateProcessA (argv_at a 1) (joined_command_line a)
          (creates w (appName a) (commandLineStr a))].
Proof.
  intros H.
  split; [apply commandLineStr_joined|].
  split; [intros arg Hs; unfold quote_if_space; now rewrite Hs|].
  split; [intros arg Hs; unfold quote_if_space; now rewrite Hs|].
  split; [reflexivity|].
  rewrite <- commandLineStr_joined.
  change (argv_at a 1) with (appName a).
  run_cases_of stack w a; [lia|rewrite HC; reflexivity..].
Qed.

Lemma command_line_joined_witness :
  let a := mkArgv "consumo.exe" ["my app.exe"; "-n"; "two words"; "x"] in
  let w := mkWorld (fun _ _ => false) true None 2
             (fun _ => Some "Archivo no encontrado.") in
  let q := String dquote EmptyString in
  (2 <= argc a)%nat
  /\ commandLineStr a
     = q ++ "my app.exe" ++ q ++ " -n " ++ q ++ "two words" ++ q ++ " x"
  /\ filter is_create (trace_of (run w (main 0 a)))
     = [EvCreateProcessA "my app.exe"
          (q ++ "my app.exe" ++ q ++ " -n " ++ q ++ "two words" ++ q ++ " x")
          false].
Proof.
  intros a w q.
  assert (H : (2 <= argc a)%nat) by (cbv; lia).
  split; [exact H|].
  destruct (command_line_joined 0 w a H) as [H1 [_ [_ [_ H2]]]].
  split; [rewrite H1; reflexivity | rewrite H2; reflexivity].
Defined.

(** C1, as stated, fails: when the system reports 2^63 ticks of kernel
    time and 2^63 ticks of user time, the sum of the reported times is
    2^64 ticks, but the one energy figure of the run is 0 and not that
    sum converted to seconds and multiplied by 50. *)
Lemma energy_not_of_reported_sum :
  let a := mkArgv "consumo.exe" ["notepad.exe"] in
  let half := mkFILETIME 0 2147483648 in
  let pt := mkProcessTimes (mkFILETIME 5 0) (mkFILETIME 9 0) half half in
  let w := mkWorld (fun _ _ => true) true (Some pt) 0
             (fun _ => Some "Acceso denegado.") in
  let tr := trace_of (run w (main 0 a)) in
  let totalCpuSeconds :=
    div (of_Z (ticks (ftKernel pt) + ticks (ftUser pt))) (of_Z 10000000) in
  wf_FILETIME (ftKernel pt) /\ wf_FILETIME (ftUser pt)
  /\ ticks (ftKernel pt) = 2 ^ 63 /\ ticks (ftUser pt) = 2 ^ 63
  /\ energy_reports tr = [(zero, " Joules")]
  /\ map fst (energy_reports tr) <> [mul totalCpuSeconds (of_Z 50)].
Proof.
  intros a half pt w tr totalCpuSeconds.
  split; [cbv; repeat split; congruence|].
  split; [cbv; repeat split; congruence|].
  split; [reflexivity|]. split; [reflexivity|]. split; [reflexivity|].
  vm_compute. discriminate.
Qed.

(** C1, amended. In a run where the target is launched and its times are
    read after it has exited, the energy is computed and reported exactly
    once, after the wait for the process has returned, as
    [totalCpuSeconds] times the power factor of 50 W, where
    [totalCpuSeconds] is the sum of the kernel and user tick counts that
    the system reported, reduced modulo 2^64 (so the sum itself when it is
    below 2^64), divided by 10^7; no other energy figure appears in the
    run. *)
Theorem energy_computed_once
  (stack : ULARGE_INTEGER) (w : World) (a : Argv) (pt : ProcessTimes) :
  (2 <= argc a)%nat ->
  creates w (appName a) (commandLineStr a) = true ->
  child_exits w = true ->
  times w = Some pt ->
  wf_FILETIME (ftKernel pt) ->
  wf_FILETIME (ftUser pt) ->
  let reported := ticks (ftKernel pt) + ticks (ftUser pt) in
  let totalCpuSeconds := div (of_Z (reported mod 2 ^ 64)) (of_Z 10000000) in
  let tr := trace_of (run w (main stack a)) in
  energy_reports tr = [(mul totalCpuSeconds (of_Z 50), " Joules")]
  /\ cpu_time_reports tr = [totalCpuSeconds]
  /\ (reported < 2 ^ 64 ->
      totalCpuSeconds = div (of_Z reported) (of_Z 10000000))
  /\ exists before after,
       tr = (before ++ EvWait hProcess true :: after)%list
       /\ energy_reports before = []
       /\ List.length (energy_reports after) = 1%nat.
Proof.
  intros H Hc He Ht Hk Hu reported totalCpuSeconds tr.
  subst tr. rewrite (run_report stack w a pt H Hc He Ht).
  cbn [trace_of fst].
  rewrite energy_reports_report, cpu_time_reports_report.
  unfold totalTimeSeconds, add_ULONGLONG.
  rewrite (fileTimeToULL_value stack _ Hk), (fileTimeToULL_value stack _ Hu).
  fold (ticks (ftKernel pt)) (ticks (ftUser pt)).
  split; [reflexivity|]. split; [reflexivity|].
  split.
  - intros Hlt. subst totalCpuSeconds.
    rewrite Z.mod_small; [reflexivity|].
    destruct Hk as [[? ?] [? ?]], Hu as [[? ?] [? ?]].
    unfold reported, ticks in *. lia.
  - eexists [_; _], _. split; [reflexivity|]. split; reflexivity.
Qed.

Lemma energy_computed_once_witness :
  let a := mkArgv "consumo.exe" ["notepad.exe"] in
  let pt := mkProcessTimes (mkFILETIME 5 0) (mkFILETIME 9 0)
              (mkFILETIME 705032704 1) (mkFILETIME 705032704 1) in
  let w := mkWorld (fun _ _ => true) true (Some pt) 0
             (fun _ => Some "Acceso denegado.") in
  let tr := trace_of (run w (main 0 a)) in
  (2 <= argc a)%nat
  /\ creates w (appName a) (commandLineStr a) = true
  /\ child_exits w = true
  /\ times w = Some pt
  /\ wf_FILETIME (ftKernel pt)
  /\ wf_FILETIME (ftUser pt)
  /\ ticks (ftKernel pt) = 5000000000
  /\ ticks (ftUser pt) = 5000000000
  /\ energy_reports tr = [(of_Z 50000, " Joules")]
  /\ cpu_time_reports tr = [of_Z 1000].
Proof.
  intros a pt w tr.
  assert (H : (2 <= argc a)%nat) by (cbv; lia).
  assert (Hk : wf_FILETIME (ftKernel pt)) by (cbv; repeat split; congruence).
  assert (Hu : wf_FILETIME (ftUser pt)) by (cbv; repeat split; congruence).
  destruct (energy_computed_once 0 w a pt H eq_refl eq_refl eq_refl Hk Hu)
    as [H1 [H2 _]].
  split; [exact H|]. do 3 (split; [reflexivity|]).
  split; [exact Hk|]. split; [exact Hu|]. do 2 (split; [reflexivity|]).
  split; [exact H1 | exact H2].
Defined.

(** C2, as stated, fails: in a run whose child used one second of CPU the
    figure reported is 50, labelled Joules, and not the 1.3889e-8 that the
    MWh constant gives for one second. *)
Lemma energy_reported_not_MWh :
  let a := mkArgv "consumo.exe" ["notepad.exe"] in
  let pt := mkProcessTimes (mkFILETIME 5 0) (mkFILETIME 9 0)
              (mkFILETIME 7500000 0) (mkFILETIME 2500000 0) in
  let w := mkWorld (fun _ _ => true) true (Some pt) 0
             (fun _ => Some "Acceso denegado.") in
  let tr := trace_of (run w (main 0 a)) in
  cpu_time_reports tr = [of_Z 1]
  /\ energy_reports tr = [(of_Z 50, " Joules")]
  /\ energy_MWh (of_Z 1) = energyUnit
  /\ map fst (energy_reports tr) <> map energy_MWh (cpu_time_reports tr).
Proof.
  intros a pt w tr.
  split; [reflexivity|]. split; [reflexivity|]. split; [reflexivity|].
  vm_compute. discriminate.
Qed.

(** C2, amended. Every energy figure a run reports is labelled Joules and
    is the reported CPU time in seconds multiplied by the fixed estimate of
    50 W; no conversion to MWh takes place. *)
Theorem energy_reported_in_joules
  (stack : ULARGE_INTEGER) (w : World) (a : Argv) (d : double) (u : string) :
  let tr := trace_of (run w (main stack a)) in
  In (d, u) (energy_reports tr) ->
  u = " Joules"
  /\ exists t, cpu_time_reports tr = [t]
               /\ d = mul t potenciaEstimadaW
               /\ potenciaEstimadaW = of_Z 50.
Proof.
  intros tr. subst tr.
  run_cases_of stack w a; try (intros []; fail).
  cbn [trace_of fst].
  rewrite energy_reports_report, cpu_time_reports_report.
  intros [Heq|[]]. inversion Heq; subst.
  split; [reflexivity|]. eexists. repeat split.
Qed.

Lemma energy_reported_in_joules_witness :
  let a := mkArgv "consumo.exe" ["notepad.exe"] in
  let pt := mkProcessTimes (mkFILETIME 5 0) (mkFILETIME 9 0)
              (mkFILETIME 7500000 0) (mkFILETIME 2500000 0) in
  let w := mkWorld (fun _ _ => true) true (Some pt) 0
             (fun _ => Some "Acceso denegado.") in
  let tr := trace_of (run w (main 0 a)) in
  In (of_Z 50, " Joules") (energy_reports tr)
  /\ exists t, cpu_time_reports tr = [t]
               /\ of_Z 50 = mul t potenciaEstimadaW
               /\ potenciaEstimadaW = of_Z 50.
Proof.
  intros a pt w tr.
  assert (H : In (of_Z 50, " Joules") (energy_reports tr))
    by (left; reflexivity).
  split; [exact H|].
  exact (proj2 (energy_reported_in_joules 0 w a _ _ H)).
Defined.

(** C6. Two runs in which the system reports the same kernel and user
    times report the same CPU time and the same energy, whatever else
    differs (the arguments, the creation and exit times, the content of the
    stack); each value is a function of the two tick counts alone. *)
Theorem energy_deterministic
  (stack1 stack2 : ULARGE_INTEGER) (w1 w2 : World) (a1 a2 : Argv)
  (pt1 pt2 : ProcessTimes) :
  times w1 = Some pt1 ->
  times w2 = Some pt2 ->
  ftKernel pt1 = ftKernel pt2 ->
  ftUser pt1 = ftUser pt2 ->
  let tr1 := trace_of (run w1 (main stack1 a1)) in
  let tr2 := trace_of (run w2 (main stack2 a2)) in
  let k := fileTimeToULL 0 (ftKernel pt1) in
  let u := fileTimeToULL 0 (ftUser pt1) in
  (forall t, In t (cpu_time_reports tr1) -> t = totalTimeSeconds k u)
  /\ (forall t, In t (cpu_time_reports tr2) -> t = totalTimeSeconds k u)
  /\ (forall e, In e (map fst (energy_reports tr1)) ->
        e = energiaJoules (totalTimeSeconds k u))
  /\ (forall e, In e (map fst (energy_reports tr2)) ->
        e = energiaJoules (totalTimeSeconds k u)).
Proof.
  intros Ht1 Ht2 Hk Hu tr1 tr2 k u. subst tr1 tr2 k u.
  assert (Hrun : forall stack w a pt0,
    times w = Some pt0 ->
    let tr := trace_of (run w (main stack a)) in
    let k := fileTimeToULL 0 (ftKernel pt0) in
    let u := fileTimeToULL 0 (ftUser pt0) in
    (forall t, In t (cpu_time_reports tr) -> t = totalTimeSeconds k u)
    /\ (forall e, In e (map fst (energy_reports tr)) ->
          e = energiaJoules (totalTimeSeconds k u))).
  { intros stack w a pt0 Hpt tr k u. subst tr k u.
    run_cases_of stack w a; try (split; intros ? []; fail).
    cbn [trace_of fst].
    rewrite energy_reports_report, cpu_time_reports_report.
    assert (pt = pt0) by congruence. subst pt.
    rewrite (fileTimeToULL_stack_irrelevant stack 0 (ftKernel pt0)).
    rewrite (fileTimeToULL_stack_irrelevant stack 0 (ftUser pt0)).
    split; intros ? [<-|[]]; reflexivity. }
  destruct (Hrun stack1 w1 a1 pt1 Ht1) as [A1 B1].
  destruct (Hrun stack2 w2 a2 pt2 Ht2) as [A2 B2].
  rewrite <- Hk, <- Hu in A2, B2.
  repeat split; assumption.
Qed.

Lemma energy_deterministic_witness :
  let a1 := mkArgv "consumo.exe" ["notepad.exe"] in
  let a2 := mkArgv "c.exe" ["calc.exe"; "one two"] in
  let pt1 := mkProcessTimes (mkFILETIME 5 0) (mkFILETIME 9 0)
               (mkFILETIME 7500000 0) (mkFILETIME 2500000 0) in
  let pt2 := mkProcessTimes (mkFILETIME 11 1) (mkFILETIME 99 1)
               (mkFILETIME 7500000 0) (mkFILETIME 2500000 0) in
  let w1 := mkWorld (fun _ _ => true) true (Some pt1) 0
              (fun _ => Some "Acceso denegado.") in
  let w2 := mkWorld (fun _ _ => true) true (Some pt2) 5
              (fun _ => Some "Acceso denegado.") in
  cpu_time_reports (trace_of (run w1 (main 1 a1))) = [of_Z 1]
  /\ cpu_time_reports (trace_of (run w2 (main 2 a2))) = [of_Z 1]
  /\ (forall t, In t (cpu_time_reports (trace_of (run w1 (main 1 a1)))) ->
        t = totalTimeSeconds 7500000 2500000)
  /\ (forall t, In t (cpu_time_reports (trace_of (run w2 (main 2 a2)))) ->
        t = totalTimeSeconds 7500000 2500000).
Proof.
  intros a1 a2 pt1 pt2 w1 w2.
  destruct (energy_deterministic 1 2 w1 w2 a1 a2 pt1 pt2
              eq_refl eq_refl eq_refl eq_refl) as [H1 [H2 _]].
  repeat split; assumption.
Defined.

(** ** Rounding: [SpecFloat]'s shifts agree with [round_shift] *)

Section ShiftRight.

Lemma iter_pos_nat {A : Type} (f : A -> A) (p : positive) (x : A) :
  SpecFloat.iter_pos f p x = Nat.iter (Pos.to_nat p) f x.
Proof.
  revert x. induction p as [p IH|p IH|]; intros x; cbn [SpecFloat.iter_pos].
  - rewrite !IH, Pos2Nat.inj_xI.
    rewrite <- Nat.iter_add, <- Nat.iter_succ_r. f_equal. lia.
  - rewrite !IH, Pos2Nat.inj_xO, <- Nat.iter_add. f_equal. lia.
  - reflexivity.
Qed.

Lemma shr_1_nonneg (m : Z) (r s : bool) :
  0 <= m ->
  shr_1 (Build_shr_record m r s)
  = Build_shr_record (m / 2) (Z.odd m) (r || s).
Proof.
  intros Hm. rewrite <- Z.div2_div.
  destruct m as [|[p|p|]|]; try reflexivity. lia.
Qed.

Lemma mod_pow2_succ (m n : Z) :
  0 <= n ->
  m mod 2 ^ (n + 1) = m mod 2 ^ n + 2 ^ n * Z.b2z (Z.testbit m n).
Proof.
  intros Hn. rewrite Z.pow_add_r, Z.pow_1_r by lia.
  rewrite Z.rem_mul_r by lia.
  rewrite Z.testbit_spec' by lia. reflexivity.
Qed.

(** [n + 1] one-bit shifts of a non-negative mantissa: the quotient, the
    last bit shifted out, and whether anything lower was set. *)
Lemma shr_iter (m : Z) (r s : bool) (n : nat) :
  0 <= m ->
  Nat.iter (S n) shr_1 (Build_shr_record m r s)
  = Build_shr_record (m / 2 ^ (Z.of_nat n + 1))
      (Z.testbit m (Z.of_nat n))
      (negb (m mod 2 ^ Z.of_nat n =? 0) || (r || s)).
Proof.
  intros Hm. induction n as [|n IH].
  - cbn [Nat.iter]. rewrite shr_1_nonneg by assumption.
    cbn [Z.of_nat]. rewrite Z.mod_1_r, Z.bit0_odd. reflexivity.
  - rewrite Nat.iter_succ, IH.
    rewrite shr_1_nonneg by (apply Z.div_pos; lia).
    rewrite Nat2Z.inj_succ, <- Z.add_1_r.
    f_equal.
    + rewrite Z.div_div by lia.
      rewrite <- (Z.pow_1_r 2) at 2. rewrite <- Z.pow_add_r by lia.
      reflexivity.
    + rewrite (Z.testbit_odd m (Z.of_nat n + 1)).
      rewrite Z.shiftr_div_pow2 by lia. reflexivity.
    + rewrite mod_pow2_succ by lia.
      pose proof (Z.mod_pos_bound m (2 ^ Z.of_nat n)) as Hb.
      assert (0 < 2 ^ Z.of_nat n) by (apply Z.pow_pos_nonneg; lia).
      destruct (Z.testbit m (Z.of_nat n)); cbn [Z.b2z orb].
      * destruct (Z.eqb_spec (m mod 2 ^ Z.of_nat n + 2 ^ Z.of_nat n * 1) 0);
          [lia|reflexivity].
      * rewrite Z.mul_0_r, Z.add_0_r. reflexivity.
Qed.

End ShiftRight.

Section RoundExact.

Lemma round_shift_nonneg (m n : Z) : 0 <= m -> 0 <= round_shift m n.
Proof.
  intros Hm. unfold round_shift.
  assert (0 <= m / 2 ^ n).
  { destruct (Z.le_gt_cases 0 n).
    - apply Z.div_pos; [lia | apply Z.pow_pos_nonneg; lia].
    - rewrite Z.pow_neg_r by lia. rewrite Z.div_0_r. lia. }
  destruct (2 * (m mod 2 ^ n) ?= 2 ^ n); [destruct (Z.even _)|..]; lia.
Qed.

Lemma round_shift_0 (m : Z) : round_shift m 0 = m.
Proof.
  unfold round_shift. rewrite Z.pow_0_r, Z.mod_1_r, Z.div_1_r. reflexivity.
Qed.

(** A shift by [n] of an exact mantissa, then rounding to nearest even,
    is [round_shift]. *)
Lemma shr_exact (m e n : Z) :
  0 <= m ->
  exists mrs,
    shr (Build_shr_record m false false) e n = (mrs, e + Z.max 0 n)
    /\ shr_m mrs = m / 2 ^ Z.max 0 n
    /\ round_nearest_even (shr_m mrs) (loc_of_shr_record mrs)
       = round_shift m (Z.max 0 n).
Proof.
  intros Hm. destruct n as [|p|p].
  - eexists. cbn [shr Z.max Z.compare]. rewrite Z.add_0_r.
    split; [reflexivity|]. cbn [shr_m loc_of_shr_record round_nearest_even].
    rewrite round_shift_0, Z.pow_0_r, Z.div_1_r. split; reflexivity.
  - cbn [shr]. rewrite iter_pos_nat.
    destruct (Pos2Nat.is_succ p) as [k Hk]. rewrite Hk.
    rewrite shr_iter by assumption.
    assert (Hp : Z.pos p = Z.of_nat k + 1) by lia.
    replace (Z.max 0 (Z.pos p)) with (Z.pos p) by lia.
    eexists. split; [reflexivity|]. cbn [shr_m].
    rewrite <- Hp. split; [reflexivity|].
    assert (Hmod : m mod 2 ^ Z.pos p
                   = m mod 2 ^ Z.of_nat k
                     + 2 ^ Z.of_nat k * Z.b2z (Z.testbit m (Z.of_nat k))).
    { rewrite Hp. apply mod_pow2_succ. lia. }
    assert (Hpow : 2 ^ Z.pos p = 2 ^ Z.of_nat k * 2).
    { rewrite Hp, Z.pow_add_r, Z.pow_1_r by lia. reflexivity. }
    unfold round_shift. rewrite Hmod.
    pose proof (Z.mod_pos_bound m (2 ^ Z.of_nat k)) as Hb.
    assert (H2k : 0 < 2 ^ Z.of_nat k) by (apply Z.pow_pos_nonneg; lia).
    specialize (Hb H2k).
    set (lo := m mod 2 ^ Z.of_nat k) in *.
    set (T := 2 ^ Z.of_nat k) in *.
    set (T2 := 2 ^ Z.pos p) in *.
    destruct (Z.testbit m (Z.of_nat k)); cbn [Z.b2z];
      destruct (Z.eqb_spec lo 0) as [Hlo|Hlo];
      cbn [negb orb loc_of_shr_record round_nearest_even].
    + replace (2 * (lo + T * 1) ?= T2) with Eq; [reflexivity|].
      symmetry. apply Z.compare_eq_iff. lia.
    + replace (2 * (lo + T * 1) ?= T2) with Gt; [reflexivity|].
      symmetry. apply Z.compare_gt_iff. lia.
    + replace (2 * (lo + T * 0) ?= T2) with Lt; [reflexivity|].
      symmetry. apply Z.compare_lt_iff. lia.
    + replace (2 * (lo + T * 0) ?= T2) with Lt; [reflexivity|].
      symmetry. apply Z.compare_lt_iff. lia.
  - eexists. cbn [shr]. replace (Z.max 0 (Z.neg p)) with 0 by lia.
    rewrite Z.add_0_r.
    split; [reflexivity|]. cbn [shr_m loc_of_shr_record round_nearest_even].
    rewrite round_shift_0, Z.pow_0_r, Z.div_1_r. split; reflexivity.
Qed.

(** [binary_round_aux] on an exact positive mantissa. *)
Lemma binary_round_aux_exact (s : bool) (m e : Z) :
  0 < m ->
  binary_round_aux prec emax s m e loc_Exact = pack s (round_exact m e).
Proof.
  intros Hm. unfold binary_round_aux, shr_fexp, round_exact, pack.
  cbn [shr_record_of_loc].
  destruct (shr_exact m e (fexp prec emax (Zdigits2 m + e) - e))
    as [mrs [Hshr [_ Hround]]]; [lia|].
  rewrite Hshr, Hround.
  set (n := Z.max 0 (fexp prec emax (Zdigits2 m + e) - e)).
  set (m' := round_shift m n).
  destruct (shr_exact m' (e + n)
              (fexp prec emax (Zdigits2 m' + (e + n)) - (e + n)))
    as [mrs' [Hshr' [Hm' _]]].
  { apply round_shift_nonneg. lia. }
  rewrite Hshr', Hm'. cbn [fst snd]. reflexivity.
Qed.

End RoundExact.

(** ** The format: digits and exponents *)

Section Format.

Lemma fexp_binary64 (x : Z) : fexp prec emax x = Z.max (x - 53) (-1074).
Proof. reflexivity. Qed.

Lemma digits2_pos_bounds (p : positive) :
  2 ^ (Z.pos (digits2_pos p) - 1) <= Z.pos p < 2 ^ Z.pos (digits2_pos p).
Proof.
  induction p as [p IH|p IH|]; cbn [digits2_pos].
  - rewrite Pos2Z.inj_succ. change (Z.pos p~1) with (2 * Z.pos p + 1).
    replace (Z.succ (Z.pos (digits2_pos p)) - 1)
      with (Z.succ (Z.pos (digits2_pos p) - 1)) by lia.
    rewrite !Z.pow_succ_r by lia. lia.
  - rewrite Pos2Z.inj_succ. change (Z.pos p~0) with (2 * Z.pos p).
    replace (Z.succ (Z.pos (digits2_pos p)) - 1)
      with (Z.succ (Z.pos (digits2_pos p) - 1)) by lia.
    rewrite !Z.pow_succ_r by lia. lia.
  - cbn. lia.
Qed.

Lemma Zdigits2_bounds (m : Z) :
  0 < m -> 0 < Zdigits2 m /\ 2 ^ (Zdigits2 m - 1) <= m < 2 ^ Zdigits2 m.
Proof.
  destruct m as [|p|p]; try lia. intros _. cbn [Zdigits2].
  split; [lia | apply digits2_pos_bounds].
Qed.

Lemma Zdigits2_le (m k : Z) : 0 < m -> 0 <= k -> m < 2 ^ k -> Zdigits2 m <= k.
Proof.
  intros Hm Hk Hlt. destruct (Zdigits2_bounds m Hm) as [Hd [Hlo _]].
  destruct (Z.le_gt_cases (Zdigits2 m) k) as [|Hgt]; [assumption|].
  assert (2 ^ k <= 2 ^ (Zdigits2 m - 1)) by (apply Z.pow_le_mono_r; lia).
  lia.
Qed.

Lemma Zdigits2_ge (m k : Z) : 0 < m -> 2 ^ k <= m -> k < Zdigits2 m.
Proof.
  intros Hm Hle. destruct (Zdigits2_bounds m Hm) as [Hd [_ Hhi]].
  destruct (Z.lt_ge_cases k (Zdigits2 m)) as [|Hge]; [assumption|].
  assert (2 ^ Zdigits2 m <= 2 ^ k) by (apply Z.pow_le_mono_r; lia).
  lia.
Qed.

End Format.

(** ** Rounding is monotone *)

Section RoundArithmetic.

Lemma round_shift_bounds (m n : Z) :
  m / 2 ^ n <= round_shift m n <= m / 2 ^ n + 1.
Proof.
  unfold round_shift.
  destruct (2 * (m mod 2 ^ n) ?= 2 ^ n); [destruct (Z.even _)|..]; lia.
Qed.

(** Scaling the value and the unit together does not change the result. *)
Lemma round_shift_scale (m n k : Z) :
  0 <= n -> 0 <= k -> round_shift (m * 2 ^ k) (n + k) = round_shift m n.
Proof.
  intros Hn Hk. unfold round_shift.
  assert (H2k : 0 < 2 ^ k) by (apply Z.pow_pos_nonneg; lia).
  assert (H2n : 0 < 2 ^ n) by (apply Z.pow_pos_nonneg; lia).
  rewrite Z.pow_add_r by lia.
  rewrite Z.div_mul_cancel_r by lia.
  rewrite Z.mul_mod_distr_r by lia.
  replace (2 * (m mod 2 ^ n * 2 ^ k)) with (2 * (m mod 2 ^ n) * 2 ^ k) by ring.
  rewrite <- Zmult_compare_compat_r by lia.
  reflexivity.
Qed.

Lemma round_shift_mono (a b n : Z) :
  0 <= n -> a <= b -> round_shift a n <= round_shift b n.
Proof.
  intros Hn Hab.
  assert (HT : 0 < 2 ^ n) by (apply Z.pow_pos_nonneg; lia).
  pose proof (Z.div_le_mono a b (2 ^ n) HT Hab) as Hq.
  destruct (Z.eq_dec (a / 2 ^ n) (b / 2 ^ n)) as [Heq|Hne].
  - assert (Hr : a mod 2 ^ n <= b mod 2 ^ n).
    { rewrite !Z.mod_eq by lia. rewrite Heq. lia. }
    unfold round_shift. rewrite Heq.
    destruct (Z.compare_spec (2 * (a mod 2 ^ n)) (2 ^ n));
      destruct (Z.compare_spec (2 * (b mod 2 ^ n)) (2 ^ n));
      destruct (Z.even (b / 2 ^ n)); lia.
  - pose proof (round_shift_bounds a n). pose proof (round_shift_bounds b n).
    lia.
Qed.

End RoundArithmetic.

Section RoundCanonical.

(** When no bit of the mantissa lies above the exponent of the format,
    rounding gives a mantissa of at most 53 bits at that exponent, or
    [2^52] one exponent higher when it rounds up to [2^53]. *)
Lemma round_exact_canonical (m e : Z) :
  0 < m ->
  e <= fexp prec emax (Zdigits2 m + e) ->
  let E := fexp prec emax (Zdigits2 m + e) in
  let M := round_shift m (E - e) in
  0 <= M <= 2 ^ 53
  /\ round_exact m e = if M =? 2 ^ 53 then (2 ^ 52, E + 1) else (M, E).
Proof.
  intros Hm He E M.
  destruct (Zdigits2_bounds m Hm) as [Hd [Hlo Hhi]].
  assert (HE : E = Z.max (Zdigits2 m + e - 53) (-1074)) by reflexivity.
  assert (Hn : 0 <= E - e) by (subst E; lia).
  assert (H2n : 0 < 2 ^ (E - e)) by (apply Z.pow_pos_nonneg; lia).
  assert (Hq : m / 2 ^ (E - e) < 2 ^ 53).
  { apply Z.div_lt_upper_bound; [assumption|].
    rewrite <- Z.pow_add_r by lia.
    apply Z.lt_le_trans with (1 := Hhi).
    apply Z.pow_le_mono_r; lia. }
  assert (HM : 0 <= M <= 2 ^ 53).
  { pose proof (round_shift_bounds m (E - e)).
    pose proof (round_shift_nonneg m (E - e)). subst M. lia. }
  split; [exact HM|].
  unfold round_exact. fold E.
  replace (Z.max 0 (E - e)) with (E - e) by lia. fold M.
  replace (e + (E - e)) with E by lia.
  rewrite fexp_binary64.
  destruct (Z.eqb_spec M (2 ^ 53)) as [Heq|Hne].
  - rewrite Heq. change (Zdigits2 (2 ^ 53)) with 54.
    replace (Z.max 0 (Z.max (54 + E - 53) (-1074) - E)) with 1 by lia.
    reflexivity.
  - assert (Hdm : Zdigits2 M <= 53).
    { destruct (Z.eq_dec M 0) as [->|HM0]; [cbn; lia|].
      apply Zdigits2_le; lia. }
    replace (Z.max 0 (Z.max (Zdigits2 M + E - 53) (-1074) - E)) with 0 by lia.
    rewrite Z.pow_0_r, Z.div_1_r, Z.add_0_r. reflexivity.
Qed.

(** The order of [double] on two packed results. *)
Lemma pack_leb (M1 E1 M2 E2 : Z) :
  0 <= M1 -> 0 <= M2 ->
  (M2 = 0 -> M1 = 0) ->
  E1 < E2 \/ (E1 = E2 /\ M1 <= M2) ->
  leb (pack false (M1, E1)) (pack false (M2, E2)) = true.
Proof.
  intros H1 H2 H0 Hlex. unfold pack, leb, SFleb. cbn [fst snd].
  destruct M1 as [|p1|p1]; [| |lia]; destruct M2 as [|p2|p2]; try lia.
  - reflexivity.
  - destruct (E2 <=? emax - prec); reflexivity.
  - destruct (Z.leb_spec E1 (emax - prec)) as [L1|L1];
      destruct (Z.leb_spec E2 (emax - prec)) as [L2|L2];
      try reflexivity.
    + cbn [SFcompare]. destruct Hlex as [Hlt|[Heq Hle]].
      * apply Z.compare_lt_iff in Hlt. rewrite Hlt. reflexivity.
      * subst E2. rewrite Z.compare_refl.
        change (Pos.compare_cont Eq p1 p2) with (Z.pos p1 ?= Z.pos p2).
        destruct (Z.compare_spec (Z.pos p1) (Z.pos p2)); [reflexivity..|lia].
    + lia.
Qed.

End RoundCanonical.

Section RoundMonotone.

(** Rounding preserves the order of the exact values [m * 2^e]; the two
    values are compared on a common scale [2^c]. *)
Lemma round_exact_mono (m1 e1 m2 e2 c : Z) :
  0 < m1 -> 0 < m2 ->
  e1 <= fexp prec emax (Zdigits2 m1 + e1) ->
  e2 <= fexp prec emax (Zdigits2 m2 + e2) ->
  c <= e1 -> c <= e2 ->
  m1 * 2 ^ (e1 - c) <= m2 * 2 ^ (e2 - c) ->
  leb (pack false (round_exact m1 e1)) (pack false (round_exact m2 e2)) = true.
Proof.
  intros Hm1 Hm2 He1 He2 Hc1 Hc2 Hle.
  destruct (round_exact_canonical m1 e1 Hm1 He1) as [HM1 Hr1].
  destruct (round_exact_canonical m2 e2 Hm2 He2) as [HM2 Hr2].
  rewrite Hr1, Hr2. clear Hr1 Hr2.
  destruct (Zdigits2_bounds m1 Hm1) as [Hd1 [Hlo1 Hhi1]].
  destruct (Zdigits2_bounds m2 Hm2) as [Hd2 [Hlo2 Hhi2]].
  pose proof (fexp_binary64 (Zdigits2 m1 + e1)) as HE1.
  pose proof (fexp_binary64 (Zdigits2 m2 + e2)) as HE2.
  set (d1 := Zdigits2 m1) in *. set (d2 := Zdigits2 m2) in *.
  set (E1 := fexp prec emax (d1 + e1)) in *.
  set (E2 := fexp prec emax (d2 + e2)) in *.
  set (M1 := round_shift m1 (E1 - e1)) in *.
  set (M2 := round_shift m2 (E2 - e2)) in *.
  assert (Hmag : d1 + e1 <= d2 + e2).
  { assert (Hpow : 2 ^ (d1 - 1 + (e1 - c)) < 2 ^ (d2 + (e2 - c))).
    { rewrite !Z.pow_add_r by lia.
      apply Z.le_lt_trans with (m1 * 2 ^ (e1 - c)).
      - apply Z.mul_le_mono_nonneg_r; [apply Z.pow_nonneg; lia | assumption].
      - apply Z.le_lt_trans with (1 := Hle).
        apply Z.mul_lt_mono_pos_r; [apply Z.pow_pos_nonneg; lia | assumption]. }
    apply Z.pow_lt_mono_r_iff in Hpow; lia. }
  assert (HE : E1 <= E2) by lia.
  destruct (Z.eq_dec E1 E2) as [Heq|Hne].
  - assert (HM : M1 <= M2).
    { subst M1 M2. rewrite <- Heq.
      rewrite <- (round_shift_scale m1 (E1 - e1) (e1 - c)) by lia.
      rewrite <- (round_shift_scale m2 (E1 - e2) (e2 - c)) by lia.
      replace (E1 - e1 + (e1 - c)) with (E1 - c) by lia.
      replace (E1 - e2 + (e2 - c)) with (E1 - c) by lia.
      apply round_shift_mono; [lia | assumption]. }
    destruct (Z.eqb_spec M1 (2 ^ 53)); destruct (Z.eqb_spec M2 (2 ^ 53));
      apply pack_leb; lia.
  - assert (HM : 2 ^ 52 <= M2).
    { assert (Hn2 : E2 - e2 = d2 - 53) by lia.
      apply Z.le_trans with (m2 / 2 ^ (E2 - e2));
        [|apply round_shift_bounds].
      rewrite Hn2.
      apply Z.div_le_lower_bound; [apply Z.pow_pos_nonneg; lia|].
      rewrite Z.mul_comm, <- Z.pow_add_r by lia.
      replace (52 + (d2 - 53)) with (d2 - 1) by lia. assumption. }
    destruct (Z.eqb_spec M1 (2 ^ 53)); destruct (Z.eqb_spec M2 (2 ^ 53));
      apply pack_leb; lia.
Qed.

Lemma canonical_facts (m : positive) (e : Z) :
  canonical_mantissa prec emax m e = true ->
  e = fexp prec emax (Z.pos (digits2_pos m) + e)
  /\ -1074 <= e
  /\ Z.pos (digits2_pos m) <= 53
  /\ (Z.pos (digits2_pos m) = 53 \/ e = -1074).
Proof.
  unfold canonical_mantissa. intros H. apply Z.eqb_eq in H.
  rewrite fexp_binary64 in *. lia.
Qed.

Lemma bounded_canonical (m : positive) (e : Z) :
  bounded prec emax m e = true -> canonical_mantissa prec emax m e = true.
Proof. unfold bounded. intros H. apply andb_prop in H. apply H. Qed.

(** The product of two canonical mantissas has no bit above the exponent
    of the format. *)
Lemma product_exponent (mx : positive) (ex : Z) (my : positive) (ey : Z) :
  canonical_mantissa prec emax mx ex = true ->
  canonical_mantissa prec emax my ey = true ->
  ex + ey <= fexp prec emax (Zdigits2 (Z.pos (mx * my)) + (ex + ey)).
Proof.
  intros Hx Hy.
  destruct (canonical_facts mx ex Hx) as [_ [Hex [Hdx Hnx]]].
  destruct (canonical_facts my ey Hy) as [_ [Hey [Hdy Hny]]].
  pose proof (digits2_pos_bounds mx) as [Hlx _].
  pose proof (digits2_pos_bounds my) as [Hly _].
  assert (Hd : Z.pos (digits2_pos mx) + Z.pos (digits2_pos my) - 2
               < Zdigits2 (Z.pos (mx * my))).
  { apply Zdigits2_ge; [lia|].
    replace (Z.pos (digits2_pos mx) + Z.pos (digits2_pos my) - 2)
      with ((Z.pos (digits2_pos mx) - 1) + (Z.pos (digits2_pos my) - 1))
      by lia.
    rewrite Z.pow_add_r, Pos2Z.inj_mul by lia.
    apply Z.mul_le_mono_nonneg; try assumption; apply Z.pow_nonneg; lia. }
  rewrite fexp_binary64. lia.
Qed.

(** The order of two canonical positive [double]s is the order of their
    values. *)
Lemma leb_finite_value (ma : positive) (ea : Z) (mb : positive) (eb : Z) :
  canonical_mantissa prec emax ma ea = true ->
  canonical_mantissa prec emax mb eb = true ->
  leb (S754_finite false ma ea) (S754_finite false mb eb) = true ->
  Z.pos ma * 2 ^ (ea - Z.min ea eb) <= Z.pos mb * 2 ^ (eb - Z.min ea eb).
Proof.
  intros Ha Hb Hle.
  destruct (canonical_facts ma ea Ha) as [_ [Hea [Hda Hna]]].
  destruct (canonical_facts mb eb Hb) as [_ [Heb [Hdb Hnb]]].
  pose proof (digits2_pos_bounds ma) as [_ Hha].
  pose proof (digits2_pos_bounds mb) as [Hlb _].
  unfold leb, SFleb in Hle. cbn [SFcompare] in Hle.
  destruct (Z.compare_spec ea eb) as [Heq|Hlt|Hgt]; [| |discriminate].
  - subst eb. rewrite Z.min_id, Z.sub_diag, Z.pow_0_r.
    change (Pos.compare_cont Eq ma mb) with (Z.pos ma ?= Z.pos mb) in Hle.
    destruct (Z.compare_spec (Z.pos ma) (Z.pos mb)); [lia..|discriminate].
  - replace (Z.min ea eb) with ea by lia.
    rewrite Z.sub_diag, Z.pow_0_r.
    assert (Hdb53 : Z.pos (digits2_pos mb) = 53) by lia.
    rewrite Hdb53 in Hlb.
    assert (H53 : Z.pos ma < 2 ^ 53).
    { apply Z.lt_le_trans with (1 := Hha). apply Z.pow_le_mono_r; lia. }
    assert (H2 : 2 ^ 1 <= 2 ^ (eb - ea)) by (apply Z.pow_le_mono_r; lia).
    assert (2 ^ 52 * 2 ^ 1 <= Z.pos mb * 2 ^ (eb - ea)).
    { apply Z.mul_le_mono_nonneg; lia. }
    lia.
Qed.

End RoundMonotone.

(** ** The energy model on [double] *)

Section EnergyModel.

Lemma round_exact_nonneg (m e : Z) : 0 < m -> 0 <= fst (round_exact m e).
Proof.
  intros Hm. unfold round_exact. cbn [fst].
  apply Z.div_pos; [apply round_shift_nonneg; lia|].
  apply Z.pow_pos_nonneg; lia.
Qed.

Lemma leb_zero_pack (s : bool) (me : Z * Z) :
  0 <= fst me -> leb (S754_zero s) (pack false me) = true.
Proof.
  intros H. unfold pack. destruct (fst me); [reflexivity| |lia].
  destruct (snd me <=? emax - prec); reflexivity.
Qed.

Lemma leb_pack_infinity (me : Z * Z) :
  0 <= fst me -> leb (pack false me) (S754_infinity false) = true.
Proof.
  intros H. unfold pack. destruct (fst me); [reflexivity| |lia].
  destruct (snd me <=? emax - prec); reflexivity.
Qed.

Lemma mul_finite_pack (sx : bool) (mx : positive) (ex : Z)
                      (sy : bool) (my : positive) (ey : Z) :
  mul (S754_finite sx mx ex) (S754_finite sy my ey)
  = pack (xorb sx sy) (round_exact (Z.pos (mx * my)) (ex + ey)).
Proof.
  unfold mul. cbn [SFmul]. apply binary_round_aux_exact. lia.
Qed.

(** A power factor: a finite, strictly positive [double]. *)
Lemma power_factor_inv (factor : double) :
  valid factor = true ->
  is_finite factor = true ->
  ltb zero factor = true ->
  exists m e, factor = S754_finite false m e
              /\ bounded prec emax m e = true.
Proof.
  intros Hv Hf Hpos. destruct factor as [s|s| |s m e]; try discriminate.
  destruct s; [discriminate|]. exists m, e. split; [reflexivity|exact Hv].
Qed.

Lemma leb_zero_sign (s : bool) (x : double) :
  leb zero x = true -> leb (S754_zero s) x = true.
Proof. destruct x as [?|[]| |[] ? ?]; intros H; exact H. Qed.

(** Energy of a non-negative elapsed time, for a finite positive factor. *)
Lemma energy_nonneg_finite (elapsed : double) (mf : positive) (ef : Z) :
  leb zero elapsed = true ->
  leb zero (energy elapsed (S754_finite false mf ef)) = true.
Proof.
  intros H. destruct elapsed as [s|s| |s m e].
  - reflexivity.
  - destruct s; [discriminate|reflexivity].
  - discriminate.
  - destruct s; [discriminate|]. unfold energy.
    rewrite mul_finite_pack. apply leb_zero_pack, round_exact_nonneg. lia.
Qed.

(** Multiplication by a finite positive [double] preserves the order of
    finite positive [double]s. *)
Lemma mul_mono_finite (ma : positive) (ea : Z) (mb : positive) (eb : Z)
                      (mf : positive) (ef : Z) :
  bounded prec emax ma ea = true ->
  bounded prec emax mb eb = true ->
  bounded prec emax mf ef = true ->
  leb (S754_finite false ma ea) (S754_finite false mb eb) = true ->
  leb (mul (S754_finite false ma ea) (S754_finite false mf ef))
      (mul (S754_finite false mb eb) (S754_finite false mf ef)) = true.
Proof.
  intros Ha Hb Hf Hle.
  apply bounded_canonical in Ha, Hb, Hf.
  rewrite !mul_finite_pack. cbn [xorb].
  apply (round_exact_mono _ _ _ _ (Z.min ea eb + ef)); try lia.
  - apply product_exponent; assumption.
  - apply product_exponent; assumption.
  - pose proof (leb_finite_value ma ea mb eb Ha Hb Hle) as Hval.
    replace (ea + ef - (Z.min ea eb + ef)) with (ea - Z.min ea eb) by lia.
    replace (eb + ef - (Z.min ea eb + ef)) with (eb - Z.min ea eb) by lia.
    rewrite !Pos2Z.inj_mul.
    replace (Z.pos ma * Z.pos mf * 2 ^ (ea - Z.min ea eb))
      with (Z.pos ma * 2 ^ (ea - Z.min ea eb) * Z.pos mf) by ring.
    replace (Z.pos mb * Z.pos mf * 2 ^ (eb - Z.min ea eb))
      with (Z.pos mb * 2 ^ (eb - Z.min ea eb) * Z.pos mf) by ring.
    apply Z.mul_le_mono_nonneg_r; [lia | assumption].
Qed.

(** The same for all [double]s from zero up, infinity included. *)
Lemma energy_mono_finite_factor (a b : double) (mf : positive) (ef : Z) :
  bounded prec emax mf ef = true ->
  valid a = true -> valid b = true ->
  leb zero a = true -> leb a b = true ->
  leb (energy a (S754_finite false mf ef))
      (energy b (S754_finite false mf ef)) = true.
Proof.
  intros Hf Hva Hvb H0a Hab.
  destruct a as [sa|sa| |sa ma ea].
  - apply leb_zero_sign. apply energy_nonneg_finite.
    destruct b as [?|[]| |[] ? ?]; try discriminate; reflexivity.
  - destruct sa; [discriminate|].
    destruct b as [?|[]| |[] ? ?]; try discriminate. reflexivity.
  - discriminate.
  - destruct sa; [discriminate|].
    destruct b as [sb|sb| |sb mb eb]; try discriminate.
    + destruct sb; [discriminate|]. unfold energy at 1.
      rewrite mul_finite_pack. apply leb_pack_infinity, round_exact_nonneg.
      lia.
    + destruct sb; [discriminate|]. unfold energy.
      apply mul_mono_finite; assumption.
Qed.

End EnergyModel.

(** C3. For every power factor (a finite positive [double], such as the
    program's 50 W) the energy of zero elapsed seconds is zero, and the
    energy of any elapsed time from zero up is not negative. *)
Theorem energy_zero_and_nonnegative (factor : double) :
  valid factor = true ->
  is_finite factor = true ->
  ltb zero factor = true ->
  energy zero factor = zero
  /\ forall elapsedSeconds,
       leb zero elapsedSeconds = true ->
       leb zero (energy elapsedSeconds factor) = true.
Proof.
  intros Hv Hf Hpos.
  destruct (power_factor_inv factor Hv Hf Hpos) as [m [e [-> _]]].
  split; [reflexivity|].
  intros elapsed H. apply energy_nonneg_finite. exact H.
Qed.

Lemma energy_zero_and_nonnegative_witness :
  valid potenciaEstimadaW = true
  /\ is_finite potenciaEstimadaW = true
  /\ ltb zero potenciaEstimadaW = true
  /\ energiaJoules zero = zero
  /\ forall elapsedSeconds,
       leb zero elapsedSeconds = true ->
       leb zero (energiaJoules elapsedSeconds) = true.
Proof.
  assert (Hv : valid potenciaEstimadaW = true) by reflexivity.
  assert (Hf : is_finite potenciaEstimadaW = true) by reflexivity.
  assert (Hp : ltb zero potenciaEstimadaW = true) by reflexivity.
  do 3 (split; [reflexivity|]).
  exact (energy_zero_and_nonnegative potenciaEstimadaW Hv Hf Hp).
Defined.

(** C4. For a fixed power factor the energy is monotone in the elapsed
    time: [0 <= a <= b] gives [energy a factor <= energy b factor]. *)
Theorem energy_monotone (factor a b : double) :
  valid factor = true ->
  is_finite factor = true ->
  ltb zero factor = true ->
  valid a = true ->
  valid b = true ->
  leb zero a = true ->
  leb a b = true ->
  leb (energy a factor) (energy b factor) = true.
Proof.
  intros Hv Hf Hpos Hva Hvb H0a Hab.
  destruct (power_factor_inv factor Hv Hf Hpos) as [m [e [-> Hb]]].
  apply energy_mono_finite_factor; assumption.
Qed.

Lemma energy_monotone_witness :
  let a := totalTimeSeconds 1 0 in
  let b := totalTimeSeconds 7500000 2500000 in
  valid potenciaEstimadaW = true
  /\ valid a = true /\ valid b = true
  /\ leb zero a = true /\ leb a b = true
  /\ leb (energiaJoules a) (energiaJoules b) = true.
Proof.
  intros a b.
  do 5 (split; [reflexivity|]).
  exact (energy_monotone potenciaEstimadaW a b
           eq_refl eq_refl eq_refl eq_refl eq_refl eq_refl eq_refl).
Defined.

(** ** The aggregate total of the metering engine *)

Section Aggregate.

Import Metering.

Variable powerFactor : Q.

Lemma sumQ_cons (x : Q) (l : list Q) : sumQ (x :: l) = (x + sumQ l)%Q.
Proof. reflexivity. Qed.

Lemma sumQ_app (l1 l2 : list Q) : (sumQ (l1 ++ l2) == sumQ l1 + sumQ l2)%Q.
Proof.
  induction l1 as [|x l1 IH]; cbn [app].
  - change (sumQ []) with 0%Q. ring.
  - rewrite !sumQ_cons, IH. ring.
Qed.

Lemma record_sample (now : Q) (m : MonitorState) :
  record (sample powerFactor now m) = record m.
Proof. unfold sample. destruct (status m); reflexivity. Qed.

Lemma record_stop (now : Q) (m : MonitorState) :
  record (stop powerFactor now m) = record m.
Proof. unfold stop. cbn [record]. apply record_sample. Qed.

Lemma accumulated_stop (now : Q) (m : MonitorState) :
  accumulated (stop powerFactor now m)
  = accumulated (sample powerFactor now m).
Proof. reflexivity. Qed.

(** Stopping twice leaves the value of the first stop. *)
Lemma stop_idempotent (now now' : Q) (m : MonitorState) :
  stop powerFactor now' (stop powerFactor now m) = stop powerFactor now m.
Proof. reflexivity. Qed.

Lemma accumulated_start_new (snapshot : Snapshot) (now : Q)
                            (act : list MonitorState) :
  (sumQ (map accumulated (start_new snapshot now act)) == 0)%Q.
Proof.
  revert act. induction snapshot as [|p rest IH]; intros act.
  - reflexivity.
  - cbn [start_new]. unfold start. cbn [identifier].
    destruct (tracked act (fst p)); [apply IH|].
    cbn [map]. rewrite sumQ_cons, IH. cbn [accumulated]. ring.
Qed.

Lemma filter_split_perm {A : Type} (f : A -> bool) (l : list A) :
  Permutation l (filter f l ++ filter (fun x => negb (f x)) l).
Proof.
  induction l as [|x l IH]; [constructor|].
  cbn [filter]. destruct (f x); cbn [negb app].
  - now constructor.
  - now apply Permutation_cons_app.
Qed.

Lemma sumQ_filter_split {A : Type} (f : A -> bool) (g : A -> Q) (l : list A) :
  (sumQ (map g (filter f l)) + sumQ (map g (filter (fun x => negb (f x)) l))
   == sumQ (map g l))%Q.
Proof.
  induction l as [|x l IH]; [reflexivity|].
  cbn [filter]. destruct (f x); cbn [negb map];
    rewrite !sumQ_cons, <- IH; ring.
Qed.

Lemma sumQ_accrued (now : Q) (l : list MonitorState) :
  (sumQ (map (fun m => accumulated (sample powerFactor now m)) l)
   == sumQ (map accumulated l) + sumQ (map (accrued powerFactor now) l))%Q.
Proof.
  induction l as [|m l IH]; [reflexivity|].
  cbn [map]. rewrite !sumQ_cons, IH. unfold accrued. ring.
Qed.

(** One cycle adds to the total what the live monitors accrue; nothing is
    taken away, whichever monitors leave the active set. *)
Lemma totalEnergy_reconcile (snapshot : Snapshot) (now : Q) (reg : Registry) :
  (totalEnergy (reconcile powerFactor snapshot now reg)
   == totalEnergy reg + sumQ (map (accrued powerFactor now) (active reg)))%Q.
Proof.
  unfold totalEnergy, reconcile. cbn [active final].
  rewrite !map_app, !sumQ_app, !map_map.
  rewrite accumulated_start_new.
  rewrite <- (sumQ_filter_split (present snapshot) (accrued powerFactor now)
                (active reg)).
  rewrite <- (sumQ_filter_split (present snapshot) accumulated (active reg)).
  fold (absent snapshot).
  change (fun x => accumulated (stop powerFactor now x))
    with (fun x => accumulated (sample powerFactor now x)).
  rewrite !sumQ_accrued.
  change (fun x => negb (present snapshot x)) with (absent snapshot).
  ring.
Qed.

Lemma elapsed_nonneg (now last : Q) : (0 <= elapsed now last)%Q.
Proof.
  unfold elapsed. destruct (Qle_bool last now) eqn:H.
  - apply Qle_bool_iff in H. rewrite <- (Qplus_opp_r last).
    apply Qplus_le_compat; [assumption | apply Qle_refl].
  - apply Qle_refl.
Qed.

Lemma accrued_nonneg (now : Q) (m : MonitorState) :
  (0 <= powerFactor)%Q -> (0 <= accrued powerFactor now m)%Q.
Proof.
  intros Hpf. unfold accrued, sample. destruct (status m); cbn [accumulated].
  - setoid_replace (accumulated m
        + Metering.energy (elapsed now (lastSample m)) powerFactor
        - accumulated m)%Q
      with (Metering.energy (elapsed now (lastSample m)) powerFactor)
      by ring.
    unfold Metering.energy. apply Qmult_le_0_compat;
      [apply elapsed_nonneg | assumption].
  - setoid_replace (accumulated m - accumulated m)%Q with 0%Q by ring.
    apply Qle_refl.
Qed.

Lemma sumQ_nonneg (l : list Q) :
  (forall x, In x l -> (0 <= x)%Q) -> (0 <= sumQ l)%Q.
Proof.
  induction l as [|x l IH]; intros H; [apply Qle_refl|].
  rewrite sumQ_cons.
  setoid_replace 0%Q with (0 + 0)%Q by ring.
  apply Qplus_le_compat; [apply H; now left | apply IH].
  intros y Hy. apply H. now right.
Qed.

Lemma final_run_cycles (cycles : list Cycle) (reg : Registry) :
  final (run_cycles powerFactor cycles reg)
  = (final reg ++ removed_log powerFactor cycles reg)%list.
Proof.
  revert reg. induction cycles as [|c rest IH]; intros reg.
  - cbn. now rewrite app_nil_r.
  - cbn [run_cycles removed_log]. rewrite IH.
    unfold reconcile at 1. cbn [final]. now rewrite app_assoc.
Qed.

Lemma records_reconcile (snapshot : Snapshot) (now : Q) (reg : Registry) :
  Permutation
    (map record
       (active (reconcile powerFactor snapshot now reg)
        ++ final (reconcile powerFactor snapshot now reg)))
    (map record (active reg ++ final reg)
     ++ map record
          (start_new snapshot now (filter (present snapshot) (active reg)))).
Proof.
  unfold reconcile. cbn [active final].
  rewrite !map_app, !map_map.
  rewrite (map_ext _ record (record_sample now)).
  rewrite (map_ext _ record (record_stop now)).
  set (K := map record (filter (present snapshot) (active reg))).
  set (G := map record (filter (absent snapshot) (active reg))).
  set (N := map record (start_new snapshot now _)).
  set (F := map record (final reg)).
  assert (HA : Permutation (map record (active reg)) (K ++ G)).
  { subst K G. rewrite <- map_app. apply Permutation_map.
    apply filter_split_perm. }
  rewrite HA.
  rewrite <- !app_assoc.
  apply Permutation_app_head.
  transitivity ((F ++ G) ++ N)%list; [apply Permutation_app_comm|].
  transitivity ((F ++ N) ++ G)%list; [|apply Permutation_app_comm].
  rewrite <- !app_assoc. apply Permutation_app_head.
  apply Permutation_app_comm.
Qed.

Lemma records_run_cycles (cycles : list Cycle) (reg : Registry) :
  Permutation
    (map record
       (active (run_cycles powerFactor cycles reg)
        ++ final (run_cycles powerFactor cycles reg)))
    (map record (active reg ++ final reg)
     ++ created_log powerFactor cycles reg).
Proof.
  revert reg. induction cycles as [|c rest IH]; intros reg.
  - cbn. now rewrite app_nil_r.
  - cbn [run_cycles created_log]. rewrite IH, records_reconcile.
    now rewrite app_assoc.
Qed.

End Aggregate.

(** C7. After any sequence of reconcile cycles the final set holds every
    monitor removed so far with the value it had when stopped, every
    monitor ever created is among the active and final ones, and
    [totalEnergy] is the sum over the current monitors plus the sum over
    the removed ones; a further cycle adds what the live monitors accrue
    and subtracts nothing, whichever monitors it removes. *)
Theorem total_counts_every_monitor
  (powerFactor : Q) (cycles : list Metering.Cycle) :
  let reg := Metering.run_cycles powerFactor cycles Metering.empty in
  let removed := Metering.removed_log powerFactor cycles Metering.empty in
  Metering.final reg = removed
  /\ Permutation
       (map Metering.record (Metering.active reg ++ Metering.final reg))
       (Metering.created_log powerFactor cycles Metering.empty)
  /\ (Metering.totalEnergy reg
      == Metering.sumQ (map Metering.accumulated (Metering.active reg))
         + Metering.sumQ (map Metering.accumulated removed))%Q
  /\ forall snapshot now,
       let reg' := Metering.reconcile powerFactor snapshot now reg in
       Metering.final reg'
       = (Metering.final reg
          ++ map (Metering.stop powerFactor now)
               (filter (Metering.absent snapshot) (Metering.active reg)))%list
       /\ (Metering.totalEnergy reg'
           == Metering.totalEnergy reg
              + Metering.sumQ (map (Metering.accrued powerFactor now)
                                 (Metering.active reg)))%Q
       /\ ((0 <= powerFactor)%Q ->
           (Metering.totalEnergy reg <= Metering.totalEnergy reg')%Q).
Proof.
  intros reg removed.
  assert (Hfinal : Metering.final reg = removed).
  { subst reg removed. rewrite final_run_cycles. reflexivity. }
  split; [exact Hfinal|].
  split.
  { subst reg. rewrite records_run_cycles. reflexivity. }
  split.
  { unfold Metering.totalEnergy. rewrite map_app, sumQ_app, Hfinal.
    reflexivity. }
  intros snapshot now reg'.
  split; [reflexivity|].
  split; [apply totalEnergy_reconcile|].
  intros Hpf. subst reg'. rewrite totalEnergy_reconcile.
  rewrite <- (Qplus_0_r (Metering.totalEnergy reg)) at 1.
  apply Qplus_le_compat; [apply Qle_refl|].
  apply sumQ_nonneg. intros x Hx. apply in_map_iff in Hx.
  destruct Hx as [m [<- _]]. apply accrued_nonneg. exact Hpf.
Qed.

Lemma total_counts_every_monitor_witness :
  let A := (1, "A") in
  let B := (2, "B") in
  let cycles := [([A], 1%Q); ([A; B], 2%Q); ([A; B], 3%Q); ([B], 4%Q)] in
  let reg := Metering.run_cycles 50 cycles Metering.empty in
  (0 <= 50)%Q
  /\ map Metering.accumulated (Metering.final reg) = [50 * 3]%Q
  /\ (Metering.totalEnergy reg == 50 * 3 + 50 * 2)%Q
  /\ (Metering.totalEnergy reg
      <= Metering.totalEnergy (Metering.reconcile 50 [] 5%Q reg))%Q
  /\ (Metering.totalEnergy (Metering.reconcile 50 [] 5%Q reg)
      == 50 * 3 + 50 * 3)%Q.
Proof.
  intros A B cycles reg.
  assert (Hpf : (0 <= 50)%Q) by (unfold Qle; simpl; lia).
  destruct (total_counts_every_monitor 50 cycles)
    as [Hfinal [_ [Htotal Hstep]]].
  destruct (Hstep [] 5%Q) as [_ [Hacc Hmono]].
  split; [exact Hpf|].
  split; [vm_compute; reflexivity|].
  split; [fold reg in Htotal; rewrite Htotal; vm_compute; reflexivity|].
  split; [exact (Hmono Hpf)|].
  fold reg in Hacc. rewrite Hacc. vm_compute. reflexivity.
Defined.

(** ** Conversion of an integer to [double] *)

Section Conversion.

Lemma pos_iter_xO (p d : positive) :
  Z.pos (Pos.iter xO p d) = Z.pos p * 2 ^ Z.pos d.
Proof.
  induction d as [|d IH] using Pos.peano_ind.
  - change (Pos.iter xO p 1) with (xO p). rewrite Z.pow_1_r. lia.
  - rewrite Pos.iter_succ, Pos2Z.inj_succ, Z.pow_succ_r by lia.
    change (Z.pos (Pos.iter xO p d)~0) with (2 * Z.pos (Pos.iter xO p d)).
    rewrite IH. ring.
Qed.

Lemma shl_align_value (p : positive) (e e' : Z) :
  e' <= e ->
  exists q, shl_align p e e' = (q, e') /\ Z.pos q = Z.pos p * 2 ^ (e - e').
Proof.
  intros Hle. unfold shl_align. destruct (e' - e) as [|d|d] eqn:Hd.
  - exists p. replace e' with e by lia.
    rewrite Z.sub_diag, Z.pow_0_r. split; [reflexivity|lia].
  - lia.
  - eexists. split; [reflexivity|]. rewrite pos_iter_xO.
    replace (e - e') with (Z.pos d) by lia. reflexivity.
Qed.

Lemma Zdigits2_mul_pow2 (m k : Z) :
  0 < m -> 0 <= k -> Zdigits2 (m * 2 ^ k) = Zdigits2 m + k.
Proof.
  intros Hm Hk. destruct (Zdigits2_bounds m Hm) as [Hd [Hlo Hhi]].
  assert (H2k : 0 < 2 ^ k) by (apply Z.pow_pos_nonneg; lia).
  assert (Hle : Zdigits2 (m * 2 ^ k) <= Zdigits2 m + k).
  { apply Zdigits2_le; [lia | lia |].
    rewrite Z.pow_add_r by lia. apply Z.mul_lt_mono_pos_r; assumption. }
  assert (Hge : Zdigits2 m - 1 + k < Zdigits2 (m * 2 ^ k)).
  { apply Zdigits2_ge; [lia|].
    rewrite Z.pow_add_r by lia. apply Z.mul_le_mono_nonneg_r; lia. }
  lia.
Qed.

(** The last step of [binary_round_aux]: a mantissa that grew to [2^53]
    is brought back to 53 bits. *)
Lemma renormalise (s : bool) (M e : Z) :
  0 <= M <= 2 ^ 53 ->
  -1074 <= e ->
  (let '(mrs, e') := shr_fexp prec emax M e loc_Exact in
   match shr_m mrs with
   | Z0 => S754_zero s
   | Z.pos m =>
       if e' <=? emax - prec then S754_finite s m e' else S754_infinity s
   | Z.neg _ => S754_nan
   end)
  = pack s (if M =? 2 ^ 53 then (2 ^ 52, e + 1) else (M, e)).
Proof.
  intros HM He. unfold shr_fexp. cbn [shr_record_of_loc].
  destruct (shr_exact M e (fexp prec emax (Zdigits2 M + e) - e))
    as [mrs [Hshr [Hm _]]]; [lia|].
  rewrite Hshr, Hm. rewrite fexp_binary64. unfold pack.
  destruct (Z.eqb_spec M (2 ^ 53)) as [Heq|Hne].
  - rewrite Heq. change (Zdigits2 (2 ^ 53)) with 54.
    replace (Z.max 0 (Z.max (54 + e - 53) (-1074) - e)) with 1 by lia.
    reflexivity.
  - assert (Hdm : Zdigits2 M <= 53).
    { destruct (Z.eq_dec M 0) as [->|HM0]; [cbn; lia|].
      apply Zdigits2_le; lia. }
    replace (Z.max 0 (Z.max (Zdigits2 M + e - 53) (-1074) - e)) with 0 by lia.
    rewrite Z.pow_0_r, Z.div_1_r, Z.add_0_r. reflexivity.
Qed.

(** Integers below [2^53] convert without rounding: the mantissa is the
    integer shifted up to 53 bits. *)
Lemma of_Z_exact (n : Z) :
  0 < n < 2 ^ 53 ->
  exists m : positive,
    of_Z n = S754_finite false m (Zdigits2 n - 53)
    /\ Z.pos m = n * 2 ^ (53 - Zdigits2 n)
    /\ Z.pos (digits2_pos m) = 53.
Proof.
  intros [Hn Hlt]. destruct n as [|p|p]; try lia.
  assert (Hd : Zdigits2 (Z.pos p) <= 53) by (apply Zdigits2_le; lia).
  destruct (Zdigits2_bounds (Z.pos p) Hn) as [Hd0 _].
  unfold of_Z, binary_normalize, binary_round.
  change (Z.pos (digits2_pos p)) with (Zdigits2 (Z.pos p)).
  set (d := Zdigits2 (Z.pos p)) in *.
  rewrite Z.add_0_r, fexp_binary64.
  replace (Z.max (d - 53) (-1074)) with (d - 53) by lia.
  destruct (shl_align_value p 0 (d - 53)) as [q [Hal Hq]]; [lia|].
  rewrite Hal.
  assert (Hdq : Zdigits2 (Z.pos q) = 53).
  { rewrite Hq, Zdigits2_mul_pow2 by lia. fold d. lia. }
  exists q. split; [|split].
  - rewrite binary_round_aux_exact by lia.
    destruct (round_exact_canonical (Z.pos q) (d - 53)) as [_ Hr]; [lia| |].
    { rewrite Hdq, fexp_binary64. lia. }
    rewrite Hr, Hdq, fexp_binary64.
    replace (Z.max (53 + (d - 53) - 53) (-1074)) with (d - 53) by lia.
    rewrite Z.sub_diag, round_shift_0.
    destruct (Zdigits2_bounds (Z.pos q)) as [_ [_ Hhi]]; [lia|].
    rewrite Hdq in Hhi.
    destruct (Z.eqb_spec (Z.pos q) (2 ^ 53)); [lia|].
    unfold pack. cbn [fst snd].
    destruct (Z.leb_spec (d - 53) (emax - prec)) as [_|Hbad]; [reflexivity|].
    change (emax - prec) with 971 in Hbad. lia.
  - rewrite Hq. f_equal. f_equal. lia.
  - exact Hdq.
Qed.

End Conversion.

(** ** Division: the quotient is rounded to nearest *)

Section Division.

(** Where the remainder [r] of a division by [D] lies. *)
Lemma new_location_spec (D r : Z) :
  0 < D -> 0 <= r < D ->
  new_location D r
  = if r =? 0 then loc_Exact else loc_Inexact (2 * r ?= D).
Proof.
  intros HD Hr. unfold new_location, new_location_even, new_location_odd.
  destruct (Z.even D) eqn:Hev; [reflexivity|].
  destruct (r =? 0); [reflexivity|]. f_equal.
  assert (Hodd : Z.odd D = true) by (rewrite <- Z.negb_even, Hev; reflexivity).
  apply Z.odd_spec in Hodd. destruct Hodd as [b Hb].
  destruct (Z.compare_spec (2 * r + 1) D);
    destruct (Z.compare_spec (2 * r) D); try reflexivity; lia.
Qed.

Lemma shr_record_of_loc_inv (q : Z) (l : location) :
  exists r0 s0,
    shr_record_of_loc q l = Build_shr_record q r0 s0
    /\ loc_of_shr_record (Build_shr_record q r0 s0) = l.
Proof.
  destruct l as [|[| |]]; cbn; eauto.
Qed.

(** A mantissa of 53 bits, or [2^53], at an exponent of the format. *)
Lemma pack_renormalised (M0 E0 : Z) :
  2 ^ 52 <= M0 <= 2 ^ 53 ->
  E0 + 1 <= 971 ->
  exists (M : positive) (E : Z),
    pack false (if M0 =? 2 ^ 53 then (2 ^ 52, E0 + 1) else (M0, E0))
    = S754_finite false M E
    /\ E0 <= E <= E0 + 1
    /\ Z.pos M * 2 ^ (E - E0) = M0.
Proof.
  intros HM HE. unfold pack.
  destruct (Z.eqb_spec M0 (2 ^ 53)) as [Heq|Hne]; cbn [fst snd].
  - change (2 ^ 52) with (Z.pos (Z.to_pos (2 ^ 52))).
    destruct (Z.leb_spec (E0 + 1) (emax - prec)) as [_|Hbad];
      [|change (emax - prec) with 971 in Hbad; lia].
    eexists _, _. split; [reflexivity|]. split; [lia|].
    replace (E0 + 1 - E0) with 1 by lia. rewrite Heq. reflexivity.
  - destruct M0 as [|p|p]; try lia.
    destruct (Z.leb_spec E0 (emax - prec)) as [_|Hbad];
      [|change (emax - prec) with 971 in Hbad; lia].
    eexists _, _. split; [reflexivity|]. split; [lia|].
    rewrite Z.sub_diag, Z.pow_0_r. lia.
Qed.

(** [binary_round_aux] on a quotient [q] of 53 or 54 bits with remainder
    [r]: the result is within half a unit in the last place of the exact
    quotient [(q * D + r) / D]. *)
Lemma round_located (q e D r : Z) :
  2 ^ 52 <= q < 2 ^ 54 ->
  -1074 <= e -> e + 2 <= 971 ->
  0 < D -> 0 <= r < D ->
  exists (M : positive) (E : Z),
    binary_round_aux prec emax false q e (new_location D r)
    = S754_finite false M E
    /\ e <= E <= e + 2
    /\ 2 * Z.abs (Z.pos M * 2 ^ (E - e) * D - (q * D + r))
       <= 2 ^ (E - e) * D.
Proof.
  intros Hq He He' HD Hr.
  rewrite new_location_spec by assumption.
  assert (Hfinish : forall M0 k,
    0 <= k <= 1 ->
    2 ^ 52 <= M0 <= 2 ^ 53 ->
    2 * Z.abs (M0 * 2 ^ k * D - (q * D + r)) <= 2 ^ k * D ->
    exists (M : positive) (E : Z),
      pack false (if M0 =? 2 ^ 53 then (2 ^ 52, e + k + 1) else (M0, e + k))
      = S754_finite false M E
      /\ e <= E <= e + 2
      /\ 2 * Z.abs (Z.pos M * 2 ^ (E - e) * D - (q * D + r))
         <= 2 ^ (E - e) * D).
  { intros M0 k Hk HM0 Herr.
    destruct (pack_renormalised M0 (e + k) HM0) as [M [E [Hp [HE HME]]]];
      [lia|].
    exists M, E. split; [exact Hp|]. split; [lia|].
    replace (E - e) with ((E - (e + k)) + k) by lia.
    rewrite Z.pow_add_r by lia.
    rewrite Z.mul_assoc, HME.
    assert (1 <= 2 ^ (E - (e + k))).
    { change 1 with (2 ^ 0). apply Z.pow_le_mono_r; lia. }
    assert (0 <= 2 ^ k * D) by (apply Z.mul_nonneg_nonneg; [apply Z.pow_nonneg|]; lia).
    nia. }
  unfold binary_round_aux. unfold shr_fexp at 1.
  destruct (shr_record_of_loc_inv q
              (if r =? 0 then loc_Exact else loc_Inexact (2 * r ?= D)))
    as [r0 [s0 [Hrec Hloc]]].
  rewrite Hrec, fexp_binary64.
  destruct (Z.lt_ge_cases q (2 ^ 53)) as [Hlt|Hge].
  - (* 53 bits: no shift *)
    assert (Hd : Zdigits2 q = 53).
    { assert (Zdigits2 q <= 53) by (apply Zdigits2_le; lia).
      assert (52 < Zdigits2 q) by (apply Zdigits2_ge; lia). lia. }
    rewrite Hd. replace (Z.max (53 + e - 53) (-1074) - e) with 0 by lia.
    cbn [shr]. rewrite Hloc. cbn [shr_m].
    set (M0 := round_nearest_even q _).
    assert (HM0 : 2 ^ 52 <= M0 <= 2 ^ 53
                  /\ 2 * Z.abs (M0 * 2 ^ 0 * D - (q * D + r)) <= 2 ^ 0 * D).
    { subst M0. rewrite Z.pow_0_r.
      destruct (Z.eqb_spec r 0) as [Hr0|Hr0]; cbn [round_nearest_even].
      - split; [lia|]. subst r. nia.
      - destruct (Z.compare_spec (2 * r) D); [destruct (Z.even q)|..];
          (split; [lia|nia]). }
    destruct HM0 as [HM0 Herr].
    rewrite (renormalise false M0 e) by lia.
    specialize (Hfinish M0 0 ltac:(lia) HM0 Herr).
    rewrite Z.add_0_r in Hfinish. exact Hfinish.
  - (* 54 bits: one shift *)
    assert (Hd : Zdigits2 q = 54).
    { assert (Zdigits2 q <= 54) by (apply Zdigits2_le; lia).
      assert (53 < Zdigits2 q) by (apply Zdigits2_ge; lia). lia. }
    rewrite Hd. replace (Z.max (54 + e - 53) (-1074) - e) with 1 by lia.
    cbn [shr SpecFloat.iter_pos]. rewrite shr_1_nonneg by lia.
    cbn [shr_m].
    assert (Hsticky : r0 || s0 = negb (r =? 0)).
    { destruct (r =? 0); [|destruct (2 * r ?= D)];
        destruct r0, s0; cbn in Hloc; try discriminate; reflexivity. }
    rewrite Hsticky.
    pose proof (Z.div_mod q 2 ltac:(lia)) as Hq2.
    rewrite Zmod_odd in Hq2.
    set (q2 := q / 2) in *.
    set (M0 := round_nearest_even q2 _).
    assert (HM0 : 2 ^ 52 <= M0 <= 2 ^ 53
                  /\ 2 * Z.abs (M0 * 2 ^ 1 * D - (q * D + r)) <= 2 ^ 1 * D).
    { subst M0. rewrite Z.pow_1_r.
      destruct (Z.odd q); destruct (Z.eqb_spec r 0) as [Hr0|Hr0];
        cbn [negb loc_of_shr_record round_nearest_even];
        [destruct (Z.even q2)|..]; (split; [lia|nia]). }
    destruct HM0 as [HM0 Herr].
    rewrite (renormalise false M0 (e + 1)) by lia.
    exact (Hfinish M0 1 ltac:(lia) HM0 Herr).
Qed.

End Division.

Section Quotient.

(** The division of two normal positive [double]s whose quotient is in
    the normal range: the mantissa of the result is within half a unit of
    the exact quotient of the mantissas. *)
Lemma div_normal (mx : positive) (ex : Z) (my : positive) (ey : Z) :
  Z.pos (digits2_pos mx) = 53 ->
  Z.pos (digits2_pos my) = 53 ->
  -1074 <= ex - ey - 53 ->
  ex - ey - 53 + 2 <= 971 ->
  exists (M : positive) (E : Z),
    div (S754_finite false mx ex) (S754_finite false my ey)
    = S754_finite false M E
    /\ ex - ey - 53 <= E <= ex - ey - 53 + 2
    /\ 2 * Z.abs (Z.pos M * 2 ^ (E - (ex - ey - 53)) * Z.pos my
                  - Z.pos mx * 2 ^ 53)
       <= 2 ^ (E - (ex - ey - 53)) * Z.pos my.
Proof.
  intros Hdx Hdy Hlo Hhi.
  unfold div. cbn [SFdiv xorb]. unfold SFdiv_core_binary.
  cbn [Zdigits2]. rewrite Hdx, Hdy, fexp_binary64.
  replace (Z.min (Z.max (53 + ex - (53 + ey) - 53) (-1074)) (ex - ey))
    with (ex - ey - 53) by lia.
  replace (ex - ey - (ex - ey - 53)) with 53 by lia.
  rewrite Z.shiftl_mul_pow2 by lia.
  pose proof (digits2_pos_bounds mx) as Hbx. rewrite Hdx in Hbx.
  pose proof (digits2_pos_bounds my) as Hby. rewrite Hdy in Hby.
  set (X := Z.pos mx * 2 ^ 53) in *.
  pose proof (Z.div_mod X (Z.pos my) ltac:(lia)) as Hdm.
  pose proof (Z.mod_pos_bound X (Z.pos my) ltac:(lia)) as Hr.
  assert (Hde : Z.div_eucl X (Z.pos my) = (X / Z.pos my, X mod Z.pos my)).
  { unfold Z.div, Z.modulo. destruct (Z.div_eucl X (Z.pos my)); reflexivity. }
  rewrite Hde.
  assert (Hq : 2 ^ 52 <= X / Z.pos my < 2 ^ 54).
  { split.
    - apply Z.div_le_lower_bound; [lia|]. subst X. nia.
    - apply Z.div_lt_upper_bound; [lia|]. subst X. nia. }
  destruct (round_located (X / Z.pos my) (ex - ey - 53) (Z.pos my)
              (X mod Z.pos my) Hq Hlo Hhi ltac:(lia) Hr)
    as [M [E [Hres [HE Herr]]]].
  exists M, E. split; [exact Hres|]. split; [exact HE|].
  replace (X / Z.pos my * Z.pos my + X mod Z.pos my) with X in Herr by lia.
  exact Herr.
Qed.

(** The seconds computed from a tick count below [2^53]: within half a
    unit in the last place of [n / 10^7]. *)
Lemma seconds_accuracy (n : Z) :
  0 < n < 2 ^ 53 ->
  exists (M : positive) (E : Z),
    div (of_Z n) ticksPerSecond = S754_finite false M E
    /\ -76 <= E <= -22
    /\ 2 * Z.abs (Z.pos M * 10 ^ 7 - n * 2 ^ (- E)) <= 10 ^ 7.
Proof.
  intros Hn.
  destruct (of_Z_exact n Hn) as [mx [Hconv [Hmx Hdx]]].
  destruct (Zdigits2_bounds n ltac:(lia)) as [Hd0 _].
  assert (Hd : Zdigits2 n <= 53) by (apply Zdigits2_le; lia).
  set (d := Zdigits2 n) in *.
  rewrite Hconv.
  change ticksPerSecond with (S754_finite false 5368709120000000 (-29)).
  destruct (div_normal mx (d - 53) 5368709120000000 (-29) Hdx eq_refl)
    as [M [E [Hres [HE Herr]]]]; [lia|lia|].
  exists M, E. split; [exact Hres|]. split; [lia|].
  replace (d - 53 - -29 - 53) with (d - 77) in * by lia.
  set (k := E - (d - 77)) in *.
  assert (Hk : 0 <= k <= 2) by (subst k; lia).
  assert (HP : 0 < 2 ^ (k + 29)) by (apply Z.pow_pos_nonneg; lia).
  assert (Hmy : Z.pos 5368709120000000 = 10 ^ 7 * 2 ^ 29) by reflexivity.
  assert (Hnum : Z.pos mx * 2 ^ 53 = 2 ^ (k + 29) * (n * 2 ^ (- E))).
  { rewrite Hmx.
    replace (n * 2 ^ (53 - d) * 2 ^ 53) with (n * (2 ^ (53 - d) * 2 ^ 53))
      by ring.
    rewrite <- Z.pow_add_r by lia.
    replace (2 ^ (k + 29) * (n * 2 ^ (- E)))
      with (n * (2 ^ (k + 29) * 2 ^ (- E))) by ring.
    rewrite <- Z.pow_add_r by (subst k; lia).
    do 2 f_equal. subst k. lia. }
  rewrite Hmy, Hnum in Herr.
  replace (Z.pos M * 2 ^ k * (10 ^ 7 * 2 ^ 29)
           - 2 ^ (k + 29) * (n * 2 ^ (- E)))
    with (2 ^ (k + 29) * (Z.pos M * 10 ^ 7 - n * 2 ^ (- E))) in Herr
    by (rewrite (Z.pow_add_r 2 k 29) by lia; ring).
  replace (2 ^ k * (10 ^ 7 * 2 ^ 29)) with (2 ^ (k + 29) * 10 ^ 7) in Herr
    by (rewrite (Z.pow_add_r 2 k 29) by lia; ring).
  rewrite Z.abs_mul, (Z.abs_eq (2 ^ (k + 29))) in Herr by lia.
  rewrite Z.mul_assoc, (Z.mul_comm 2), <- Z.mul_assoc in Herr.
  apply Z.mul_le_mono_pos_l in Herr; assumption.
Qed.

End Quotient.

(** C5, as stated, fails: the sum of the two tick counts is formed in 64
    bits, so for two counts of 2^63 ticks the program divides 0, not
    2^64, by 10^7. *)
Lemma totalTimeSeconds_wraps :
  is_ULONGLONG (2 ^ 63)
  /\ totalTimeSeconds (2 ^ 63) (2 ^ 63) = zero
  /\ totalTimeSeconds (2 ^ 63) (2 ^ 63)
     <> div (of_Z (2 ^ 63 + 2 ^ 63)) (of_Z (10 ^ 7)).
Proof.
  split; [unfold is_ULONGLONG; lia|].
  split; [reflexivity|].
  vm_compute. discriminate.
Qed.

(** C5, amended. The CPU time is the kernel plus the user tick count,
    reduced modulo 2^64, converted to [double] and divided by 10^7 in
    [double] arithmetic; whenever the sum stays below 2^64 it is the
    quotient of [k + u] itself.  For a sum below 2^53 the conversion is
    exact and the result [M * 2^E] lies within half a unit in the last
    place of [(k + u) / 10^7]; for a sum of 0 it is 0. *)
Theorem totalTimeSeconds_quotient (k u : Z) :
  is_ULONGLONG k ->
  is_ULONGLONG u ->
  totalTimeSeconds k u = div (of_Z ((k + u) mod 2 ^ 64)) (of_Z (10 ^ 7))
  /\ (k + u < 2 ^ 64 ->
      totalTimeSeconds k u = div (of_Z (k + u)) (of_Z (10 ^ 7)))
  /\ (k + u = 0 -> totalTimeSeconds k u = zero)
  /\ (0 < k + u < 2 ^ 53 ->
      exists (M : positive) (E : Z),
        totalTimeSeconds k u = S754_finite false M E
        /\ -76 <= E <= -22
        /\ 2 * Z.abs (Z.pos M * 10 ^ 7 - (k + u) * 2 ^ (- E)) <= 10 ^ 7).
Proof.
  intros Hk Hu. unfold is_ULONGLONG in *.
  split; [reflexivity|].
  split.
  { intros Hsum. unfold totalTimeSeconds, add_ULONGLONG.
    rewrite Z.mod_small by lia. reflexivity. }
  split.
  { intros H0. unfold totalTimeSeconds, add_ULONGLONG. rewrite H0.
    reflexivity. }
  intros Hsum. unfold totalTimeSeconds, add_ULONGLONG.
  rewrite Z.mod_small by lia.
  apply seconds_accuracy. exact Hsum.
Qed.

Lemma totalTimeSeconds_quotient_witness :
  is_ULONGLONG 7500000 /\ is_ULONGLONG 2500000
  /\ totalTimeSeconds 7500000 2500000 = of_Z 1
  /\ exists (M : positive) (E : Z),
       totalTimeSeconds 7500000 2500000 = S754_finite false M E
       /\ -76 <= E <= -22
       /\ 2 * Z.abs (Z.pos M * 10 ^ 7 - (7500000 + 2500000) * 2 ^ (- E))
          <= 10 ^ 7.
Proof.
  assert (Hk : is_ULONGLONG 7500000) by (unfold is_ULONGLONG; lia).
  assert (Hu : is_ULONGLONG 2500000) by (unfold is_ULONGLONG; lia).
  destruct (totalTimeSeconds_quotient 7500000 2500000 Hk Hu)
    as [H1 [_ [_ H4]]].
  split; [exact Hk|]. split; [exact Hu|].
  split; [rewrite H1; reflexivity|].
  apply H4. lia.
Defined.

(* ================================================================== *)
(** * Part III: further properties of the code *)
(* ================================================================== *)

(** ** Resources and error output of [main] *)

(** X1. A run of [main] in which no [FormatMessageA] call fails uses
    its resources in order: the process is waited for and its times are
    read only through open handles of a process that was created, the
    times only after the wait returned; the [FormatMessageA] buffer is
    printed while held and then freed.  When such a run returns, no handle
    is open and no buffer is held; when it stays blocked, it is in the
    wait, with both handles open.  A run reads a pointer that no call has
    set exactly when [CreateProcessA] or [GetProcessTimes] fails and
    [FormatMessageA] fails after it: the run is in order up to that read,
    holds no buffer there, has the handles of a created process still
    open, and has no exit code. *)
Theorem main_resources (stack : ULARGE_INTEGER) (w : World) (a : Argv) :
  let o := run w (main stack a) in
  let tr := trace_of o in
  let created := creates w (appName a) (commandLineStr a) in
  (existsb is_undefined tr = false ->
     exists r,
       resource_run no_resources tr = Some r
       /\ buffer_held r = false
       /\ (exit_code o <> None ->
           process_open r = false /\ thread_open r = false)
       /\ (exit_code o = None ->
           phase r = Launched /\ process_open r = true
           /\ thread_open r = true))
  /\ (existsb is_undefined tr = true <->
      (2 <= argc a)%nat
      /\ system_message w (last_error w) = None
      /\ (created = false
          \/ (created = true /\ child_exits w = true /\ times w = None)))
  /\ (existsb is_undefined tr = true ->
      resource_run no_resources tr = None
      /\ exit_code o = None
      /\ exists before r,
           tr = (before ++ [EvUndefined])%list
           /\ resource_run no_resources before = Some r
           /\ buffer_held r = false
           /\ process_open r = created /\ thread_open r = created).
Proof.
  intros o tr created. subst o tr created.
  run_cases_of stack w a; rewrite ?HC, ?HE, ?HT, ?HM; cbn.
  - split; [intros _; eexists; split; [reflexivity|]; cbn;
            repeat split; congruence|].
    split; [split; [discriminate | lia] | discriminate].
  - split; [intros _; eexists; split; [reflexivity|]; cbn;
            repeat split; congruence|].
    split; [split; [discriminate | intros [_ [? _]]; discriminate]
           | discriminate].
  - split; [discriminate|].
    split; [split; [intros _; split; [exact HA|]; split; [reflexivity|];
                    left; reflexivity
                   | reflexivity]|].
    intros _. split; [reflexivity|]. split; [reflexivity|].
    eexists [_; _; _], _. repeat split.
  - split; [intros _; eexists; split; [reflexivity|]; cbn;
            repeat split; congruence|].
    split; [split; [discriminate
                   | intros [_ [_ [?|[_ [? _]]]]]; discriminate]
           | discriminate].
  - split; [intros _; eexists; split; [reflexivity|]; cbn;
            repeat split; congruence|].
    split; [split; [discriminate | intros [_ [? _]]; discriminate]
           | discriminate].
  - split; [discriminate|].
    split; [split; [intros _; split; [exact HA|]; split; [reflexivity|];
                    right; repeat split
                   | reflexivity]|].
    intros _. split; [reflexivity|]. split; [reflexivity|].
    eexists [_; _; _; _; _; _], _. repeat split.
  - split; [intros _; eexists; split; [reflexivity|]; cbn;
            repeat split; congruence|].
    split; [split; [discriminate
                   | intros [_ [_ [?|[_ [_ ?]]]]]; discriminate]
           | discriminate].
Qed.

Lemma main_resources_witness :
  let a := mkArgv "consumo.exe" ["notepad.exe"] in
  let w := mkWorld (fun _ _ => true) true None 5
             (fun _ => Some "Acceso denegado.") in
  let w' := mkWorld (fun _ _ => true) true None 317 (fun _ => None) in
  (existsb is_undefined (trace_of (run w (main 0 a))) = false
   /\ exists r,
        resource_run no_resources (trace_of (run w (main 0 a))) = Some r
        /\ buffer_held r = false
        /\ process_open r = false /\ thread_open r = false)
  /\ (existsb is_undefined (trace_of (run w' (main 0 a))) = true
      /\ resource_run no_resources (trace_of (run w' (main 0 a))) = None
      /\ exit_code (run w' (main 0 a)) = None).
Proof.
  intros a w w'.
  assert (H : existsb is_undefined (trace_of (run w (main 0 a))) = false)
    by reflexivity.
  assert (H' : existsb is_undefined (trace_of (run w' (main 0 a))) = true)
    by reflexivity.
  split.
  - split; [exact H|].
    destruct (proj1 (main_resources 0 w a) H) as [r [Hr [Hb [Hret _]]]].
    exists r. split; [exact Hr|]. split; [exact Hb|].
    apply Hret. rewrite (run_times_failed 0 w a "Acceso denegado.");
      [discriminate | cbv; lia | reflexivity..].
  - split; [exact H'|].
    destruct (proj2 (proj2 (main_resources 0 w' a)) H') as [Hr [He _]].
    split; [exact Hr | exact He].
Defined.



(** ** The command line as a C string *)

Section CommandLineFacts.

Lemma has_space_has_char (s : string) : has_space s = has_char space s.
Proof. induction s as [|c s IH]; cbn; [|rewrite IH]; reflexivity. Qed.

Lemma has_char_append (c : ascii) (s t : string) :
  has_char c (s ++ t) = has_char c s || has_char c t.
Proof.
  induction s as [|d s IH]; cbn; [reflexivity|].
  destruct (Ascii.eqb d c); [reflexivity | exact IH].
Qed.

Lemma has_char_quote_if_space (c : ascii) (arg : string) :
  c <> dquote -> has_char c (quote_if_space arg) = has_char c arg.
Proof.
  intros Hc. unfold quote_if_space. destruct (has_space arg); [|reflexivity].
  cbn [has_char]. rewrite has_char_append. cbn [has_char].
  assert (Ascii.eqb dquote c = false) as ->
    by (apply Ascii.eqb_neq; congruence).
  now rewrite orb_false_r.
Qed.

Lemma has_char_concat (c : ascii) (l : list string) :
  c <> space -> c <> dquote ->
  has_char c (String.concat (String space EmptyString)
                (map quote_if_space l))
  = existsb (has_char c) l.
Proof.
  intros Hs Hq. induction l as [|x l IH]; [reflexivity|].
  cbn [map existsb]. destruct l as [|y l].
  - cbn. rewrite has_char_quote_if_space by assumption.
    now rewrite orb_false_r.
  - change (String.concat (String space EmptyString)
              (quote_if_space x :: map quote_if_space (y :: l)))
      with (quote_if_space x ++ String space EmptyString
            ++ String.concat (String space EmptyString)
                 (map quote_if_space (y :: l))).
    rewrite !has_char_append, IH, has_char_quote_if_space by assumption.
    cbn [has_char].
    assert (Ascii.eqb space c = false) as ->
      by (apply Ascii.eqb_neq; congruence).
    reflexivity.
Qed.

Lemma strlen_le_length (s : string) : (strlen s <= String.length s)%nat.
Proof.
  induction s as [|c s IH]; cbn; [lia|].
  destruct (Ascii.eqb c NUL); lia.
Qed.

Lemma c_str_no_NUL (s : string) : has_char NUL s = false -> c_str s = s.
Proof.
  induction s as [|c s IH]; cbn; [reflexivity|].
  destruct (Ascii.eqb c NUL); [discriminate|].
  intros H. now rewrite IH.
Qed.

End CommandLineFacts.

(** X3. The buffer [cmdLine] is always large enough: [strcpy_s] never
    fails, whatever the arguments, and when the arguments are C strings
    (no NUL inside) the buffer handed to [CreateProcessA] holds the whole
    command line. *)
Theorem cmdLine_fits (a : Argv) :
  cmdLine a = Some (c_str (commandLineStr a))
  /\ (existsb (has_char NUL) (args a) = false ->
      cmdLine a = Some (commandLineStr a)).
Proof.
  assert (Hfit : cmdLine a = Some (c_str (commandLineStr a))).
  { unfold cmdLine, strcpy_s.
    pose proof (strlen_le_length (commandLineStr a)) as Hle.
    assert ((strlen (commandLineStr a)
             <? String.length (commandLineStr a) + 1)%nat = true) as ->
      by (apply Nat.ltb_lt; lia).
    reflexivity. }
  split; [exact Hfit|].
  intros Hnul. rewrite Hfit. f_equal. apply c_str_no_NUL.
  rewrite commandLineStr_joined. unfold joined_command_line.
  rewrite has_char_concat by discriminate. exact Hnul.
Qed.

Lemma cmdLine_fits_witness :
  let a := mkArgv "consumo.exe" ["my app.exe"; "-n"] in
  existsb (has_char NUL) (args a) = false
  /\ cmdLine a = Some (commandLineStr a).
Proof.
  intros a.
  assert (H : existsb (has_char NUL) (args a) = false) by reflexivity.
  split; [exact H|].
  exact (proj2 (cmdLine_fits a) H).
Defined.

(** ** The command line determines the arguments *)

Section CommandLineInjective.

(** Two strings that are cut at the first [c]: equal wholes have equal
    parts. *)
Lemma split_first (c : ascii) (x1 x2 s1 s2 : string) :
  has_char c x1 = false -> has_char c x2 = false ->
  (s1 = EmptyString \/ exists t, s1 = String c t) ->
  (s2 = EmptyString \/ exists t, s2 = String c t) ->
  x1 ++ s1 = x2 ++ s2 ->
  x1 = x2 /\ s1 = s2.
Proof.
  revert x2. induction x1 as [|d1 x1 IH]; intros [|d2 x2] H1 H2 Hs1 Hs2 Heq;
    cbn in *.
  - split; [reflexivity | exact Heq].
  - destruct Hs1 as [->|[t ->]]; [discriminate|].
    injection Heq as <- _. rewrite Ascii.eqb_refl in H2. discriminate.
  - destruct Hs2 as [->|[t ->]]; [discriminate|].
    injection Heq as -> _. rewrite Ascii.eqb_refl in H1. discriminate.
  - injection Heq as -> Heq.
    destruct (Ascii.eqb d2 c); [discriminate|].
    destruct (IH x2 H1 H2 Hs1 Hs2 Heq) as [-> ->]. split; reflexivity.
Qed.

(** The first token and what follows it. *)
Lemma token_split (x1 x2 r1 r2 : string) :
  has_char dquote x1 = false -> has_char dquote x2 = false ->
  (r1 = EmptyString \/ exists t, r1 = String space t) ->
  (r2 = EmptyString \/ exists t, r2 = String space t) ->
  quote_if_space x1 ++ r1 = quote_if_space x2 ++ r2 ->
  x1 = x2 /\ r1 = r2.
Proof.
  intros Hq1 Hq2 Hr1 Hr2. unfold quote_if_space.
  rewrite !has_space_has_char.
  destruct (has_char space x1) eqn:Hs1; destruct (has_char space x2) eqn:Hs2;
    intros Heq.
  - cbn in Heq. injection Heq as Heq. rewrite !append_assoc in Heq.
    destruct (split_first dquote x1 x2 _ _ Hq1 Hq2
                (or_intror (ex_intro _ _ eq_refl))
                (or_intror (ex_intro _ _ eq_refl)) Heq) as [-> Hr].
    cbn in Hr. injection Hr as ->. split; reflexivity.
  - cbn in Heq. destruct x2 as [|d x2]; cbn in Heq.
    + destruct Hr2 as [->|[t ->]]; discriminate.
    + injection Heq as <- _. cbn in Hq2. discriminate.
  - cbn in Heq. destruct x1 as [|d x1]; cbn in Heq.
    + destruct Hr1 as [->|[t ->]]; discriminate.
    + injection Heq as -> _. cbn in Hq1. discriminate.
  - exact (split_first space x1 x2 r1 r2 Hs1 Hs2 Hr1 Hr2 Heq).
Qed.

Lemma concat_cons (x : string) (l : list string) :
  String.concat (String space EmptyString) (x :: l)
  = x ++ match l with
         | [] => EmptyString
         | _ :: _ =>
             String space (String.concat (String space EmptyString) l)
         end.
Proof. destruct l; cbn; [now rewrite append_nil_r | reflexivity]. Qed.

Lemma joined_injective (l1 l2 : list string) :
  l1 <> [] -> l2 <> [] ->
  forallb (fun x => negb (has_char dquote x)) l1 = true ->
  forallb (fun x => negb (has_char dquote x)) l2 = true ->
  String.concat (String space EmptyString) (map quote_if_space l1)
  = String.concat (String space EmptyString) (map quote_if_space l2) ->
  l1 = l2.
Proof.
  revert l2. induction l1 as [|x1 l1 IH]; intros [|x2 l2] Hn1 Hn2 Hq1 Hq2 Heq;
    try congruence.
  cbn [map forallb] in *. rewrite !concat_cons in Heq.
  apply andb_prop in Hq1, Hq2. destruct Hq1 as [Hx1 Hq1], Hq2 as [Hx2 Hq2].
  apply negb_true_iff in Hx1, Hx2.
  apply token_split in Heq; try assumption.
  - destruct Heq as [-> Hrest]. f_equal.
    destruct l1 as [|y1 l1]; destruct l2 as [|y2 l2]; cbn [map] in Hrest;
      try discriminate; [reflexivity|].
    injection Hrest as Hrest. apply IH; try assumption; discriminate.
  - destruct (map quote_if_space l1); [now left | right; eauto].
  - destruct (map quote_if_space l2); [now left | right; eauto].
Qed.

End CommandLineInjective.

(** X4. The command line determines the arguments: two argument lists
    (at least the program each, [argc >= 2]) in which no argument contains
    a double quote give the same command line only if they are equal. *)
Theorem command_line_injective (a1 a2 : Argv) :
  (2 <= argc a1)%nat -> (2 <= argc a2)%nat ->
  forallb (fun x => negb (has_char dquote x)) (args a1) = true ->
  forallb (fun x => negb (has_char dquote x)) (args a2) = true ->
  commandLineStr a1 = commandLineStr a2 ->
  args a1 = args a2.
Proof.
  intros H1 H2 Hq1 Hq2 Heq.
  rewrite !commandLineStr_joined in Heq. unfold joined_command_line in Heq.
  apply joined_injective; try assumption.
  - intros E. unfold argc in H1. rewrite E in H1. cbn in H1. lia.
  - intros E. unfold argc in H2. rewrite E in H2. cbn in H2. lia.
Qed.

Lemma command_line_injective_witness :
  let a1 := mkArgv "consumo.exe" ["my app.exe"; "-n"] in
  let a2 := mkArgv "c.exe" ["my app.exe"; "-n"] in
  (2 <= argc a1)%nat /\ (2 <= argc a2)%nat
  /\ commandLineStr a1 = commandLineStr a2
  /\ args a1 = args a2.
Proof.
  intros a1 a2.
  assert (H1 : (2 <= argc a1)%nat) by (cbv; lia).
  assert (H2 : (2 <= argc a2)%nat) by (cbv; lia).
  assert (He : commandLineStr a1 = commandLineStr a2) by reflexivity.
  split; [exact H1|]. split; [exact H2|]. split; [exact He|].
  exact (command_line_injective a1 a2 H1 H2 eq_refl eq_refl He).
Defined.

(** The condition on double quotes is needed: an argument is not
    escaped, so a quoted argument and two arguments that carry the quotes
    themselves give the same command line. *)
Lemma command_line_ambiguous :
  let q := String dquote EmptyString in
  commandLineStr (mkArgv "consumo.exe" ["a b"])
  = commandLineStr (mkArgv "consumo.exe" [q ++ "a"; "b" ++ q]).
Proof. reflexivity. Qed.

(** ** The order of [FILETIME] values *)

(** X5. [fileTimeToULL] keeps the order of times: the 64-bit values
    compare as the pairs (high, low) do, and are equal only for the same
    [FILETIME]. *)
Theorem fileTimeToULL_order (uli1 uli2 : Z) (ft1 ft2 : FILETIME) :
  wf_FILETIME ft1 -> wf_FILETIME ft2 ->
  (fileTimeToULL uli1 ft1 < fileTimeToULL uli2 ft2 <->
   dwHighDateTime ft1 < dwHighDateTime ft2
   \/ (dwHighDateTime ft1 = dwHighDateTime ft2
       /\ dwLowDateTime ft1 < dwLowDateTime ft2))
  /\ (fileTimeToULL uli1 ft1 = fileTimeToULL uli2 ft2 <-> ft1 = ft2).
Proof.
  intros Hwf1 Hwf2.
  rewrite (fileTimeToULL_value uli1 ft1 Hwf1).
  rewrite (fileTimeToULL_value uli2 ft2 Hwf2).
  destruct ft1 as [lo1 hi1], ft2 as [lo2 hi2].
  destruct Hwf1 as [Hlo1 Hhi1], Hwf2 as [Hlo2 Hhi2].
  unfold is_DWORD in *. cbn [dwLowDateTime dwHighDateTime] in *.
  split; [lia|]. split.
  - intros H. assert (hi1 = hi2 /\ lo1 = lo2) as [-> ->] by lia. reflexivity.
  - intros H. injection H as -> ->. reflexivity.
Qed.

Lemma fileTimeToULL_order_witness :
  let ft1 := mkFILETIME 0xFFFFFFFF 1 in
  let ft2 := mkFILETIME 0 2 in
  wf_FILETIME ft1 /\ wf_FILETIME ft2
  /\ fileTimeToULL 7 ft1 < fileTimeToULL 9 ft2.
Proof.
  intros ft1 ft2.
  assert (H1 : wf_FILETIME ft1) by (split; simpl; unfold is_DWORD; lia).
  assert (H2 : wf_FILETIME ft2) by (split; simpl; unfold is_DWORD; lia).
  split; [exact H1|]. split; [exact H2|].
  apply (proj1 (fileTimeToULL_order 7 9 ft1 ft2 H1 H2)).
  left. simpl. lia.
Defined.

(** ** Division, functionally *)

Section RoundDiv.

Lemma round_div_bounds (N D : Z) :
  N / D <= round_div N D <= N / D + 1.
Proof.
  unfold round_div.
  destruct (2 * (N mod D) ?= D); [destruct (Z.even _)|..]; lia.
Qed.

Lemma round_div_scale (N D c : Z) :
  0 < D -> 0 < c -> round_div (N * c) (D * c) = round_div N D.
Proof.
  intros HD Hc. unfold round_div.
  rewrite Z.div_mul_cancel_r by lia.
  rewrite Z.mul_mod_distr_r by lia.
  replace (2 * (N mod D * c)) with (2 * (N mod D) * c) by ring.
  rewrite <- Zmult_compare_compat_r by lia.
  reflexivity.
Qed.

Lemma round_div_mono (a b D : Z) :
  0 < D -> a <= b -> round_div a D <= round_div b D.
Proof.
  intros HD Hab.
  pose proof (Z.div_le_mono a b D HD Hab) as Hq.
  destruct (Z.eq_dec (a / D) (b / D)) as [Heq|Hne].
  - assert (Hr : a mod D <= b mod D).
    { rewrite !Z.mod_eq by lia. rewrite Heq. lia. }
    unfold round_div. rewrite Heq.
    destruct (Z.compare_spec (2 * (a mod D)) D);
      destruct (Z.compare_spec (2 * (b mod D)) D);
      destruct (Z.even (b / D)); lia.
  - pose proof (round_div_bounds a D). pose proof (round_div_bounds b D).
    lia.
Qed.

(** [binary_round_aux] on a quotient of 53 or 54 bits with its remainder
    is [round_quotient]. *)
Lemma binary_round_aux_located (s : bool) (N D e : Z) :
  0 < D ->
  2 ^ 52 <= N / D < 2 ^ 54 ->
  -1074 <= e ->
  binary_round_aux prec emax s (N / D) e (new_location D (N mod D))
  = pack s (round_quotient N D e).
Proof.
  intros HD Hq He.
  pose proof (Z.mod_pos_bound N D HD) as Hr.
  rewrite new_location_spec by assumption.
  unfold binary_round_aux. unfold shr_fexp at 1.
  set (q := N / D) in *. set (r := N mod D) in *.
  destruct (shr_record_of_loc_inv q
              (if r =? 0 then loc_Exact else loc_Inexact (2 * r ?= D)))
    as [r0 [s0 [Hrec Hloc]]].
  rewrite Hrec, fexp_binary64. unfold round_quotient. fold q.
  destruct (Z.lt_ge_cases q (2 ^ 53)) as [Hlt|Hge].
  - assert (Hd : Zdigits2 q = 53).
    { assert (Zdigits2 q <= 53) by (apply Zdigits2_le; lia).
      assert (52 < Zdigits2 q) by (apply Zdigits2_ge; lia). lia. }
    rewrite Hd. replace (Z.max (53 + e - 53) (-1074) - e) with 0 by lia.
    cbn [shr]. rewrite Hloc. cbn [shr_m].
    rewrite Z.sub_diag, Z.pow_0_r, Z.mul_1_r, Z.add_0_r.
    assert (HM : round_nearest_even q
                   (if r =? 0 then loc_Exact else loc_Inexact (2 * r ?= D))
                 = round_div N D).
    { unfold round_div. fold q r.
      destruct (Z.eqb_spec r 0) as [Hr0|Hr0]; cbn [round_nearest_even].
      - destruct (Z.compare_spec (2 * r) D); [lia|reflexivity|lia].
      - reflexivity. }
    rewrite HM.
    pose proof (round_div_bounds N D) as Hb. fold q in Hb.
    apply renormalise; lia.
  - assert (Hd : Zdigits2 q = 54).
    { assert (Zdigits2 q <= 54) by (apply Zdigits2_le; lia).
      assert (53 < Zdigits2 q) by (apply Zdigits2_ge; lia). lia. }
    rewrite Hd. replace (Z.max (54 + e - 53) (-1074) - e) with 1 by lia.
    cbn [shr SpecFloat.iter_pos]. rewrite shr_1_nonneg by lia.
    cbn [shr_m].
    assert (Hsticky : r0 || s0 = negb (r =? 0)).
    { destruct (r =? 0); [|destruct (2 * r ?= D)];
        destruct r0, s0; cbn in Hloc; try discriminate; reflexivity. }
    rewrite Hsticky.
    replace (54 - 53) with 1 by lia. rewrite Z.pow_1_r.
    assert (HM : round_nearest_even (q / 2)
                   (loc_of_shr_record
                      (Build_shr_record (q / 2) (Z.odd q) (negb (r =? 0))))
                 = round_div N (D * 2)).
    { unfold round_div.
      rewrite <- Z.div_div by lia. fold q.
      rewrite Z.rem_mul_r by lia. fold q r.
      rewrite Zmod_odd.
      destruct (Z.odd q); destruct (Z.eqb_spec r 0) as [Hr0|Hr0];
        cbn [negb loc_of_shr_record round_nearest_even].
      - replace (2 * (r + D * 1) ?= D * 2) with Eq; [reflexivity|].
        symmetry. apply Z.compare_eq_iff. lia.
      - replace (2 * (r + D * 1) ?= D * 2) with Gt; [reflexivity|].
        symmetry. apply Z.compare_gt_iff. lia.
      - replace (2 * (r + D * 0) ?= D * 2) with Lt; [reflexivity|].
        symmetry. apply Z.compare_lt_iff. lia.
      - replace (2 * (r + D * 0) ?= D * 2) with Lt; [reflexivity|].
        symmetry. apply Z.compare_lt_iff. lia. }
    rewrite HM.
    pose proof (round_div_bounds N (D * 2)) as Hb.
    rewrite <- Z.div_div in Hb by lia. fold q in Hb.
    assert (Hlo2 : 2 ^ 52 <= q / 2) by (apply Z.div_le_lower_bound; lia).
    assert (Hhi2 : q / 2 < 2 ^ 53) by (apply Z.div_lt_upper_bound; lia).
    apply renormalise; lia.
Qed.

End RoundDiv.

(** ** Results in the normal range *)

Section NormalRange.

(** A 53-bit mantissa at an exponent of the format is a valid finite
    [double]. *)
Lemma pack_normal (s : bool) (M E : Z) :
  2 ^ 52 <= M < 2 ^ 53 -> -1074 <= E <= 971 ->
  exists m : positive,
    pack s (M, E) = S754_finite s m E
    /\ Z.pos m = M
    /\ Z.pos (digits2_pos m) = 53
    /\ valid (S754_finite s m E) = true.
Proof.
  intros HM HE. destruct M as [|m|m]; try lia.
  assert (Hd : Z.pos (digits2_pos m) = 53).
  { change (Z.pos (digits2_pos m)) with (Zdigits2 (Z.pos m)).
    assert (Zdigits2 (Z.pos m) <= 53) by (apply Zdigits2_le; lia).
    assert (52 < Zdigits2 (Z.pos m)) by (apply Zdigits2_ge; lia). lia. }
  exists m. unfold pack. cbn [fst snd].
  destruct (Z.leb_spec E (emax - prec)) as [Hle|Hgt];
    [|change (emax - prec) with 971 in Hgt; lia].
  split; [reflexivity|]. split; [reflexivity|]. split; [exact Hd|].
  unfold valid, valid_binary, bounded, canonical_mantissa.
  rewrite Hd, fexp_binary64.
  apply andb_true_intro. split; [apply Z.eqb_eq | apply Z.leb_le]; lia.
Qed.

(** Rounding a value of the normal range gives a 53-bit mantissa. *)
Lemma round_exact_normal (m e : Z) :
  0 < m ->
  e <= fexp prec emax (Zdigits2 m + e) ->
  -1074 <= Zdigits2 m + e - 53 ->
  exists M E,
    round_exact m e = (M, E)
    /\ 2 ^ 52 <= M < 2 ^ 53
    /\ Zdigits2 m + e - 53 <= E <= Zdigits2 m + e - 52.
Proof.
  intros Hm He Hn.
  destruct (round_exact_canonical m e Hm He) as [HM Hr].
  destruct (Zdigits2_bounds m Hm) as [Hd [Hlo Hhi]].
  pose proof (fexp_binary64 (Zdigits2 m + e)) as HE.
  set (E := fexp prec emax (Zdigits2 m + e)) in *.
  set (M := round_shift m (E - e)) in *.
  assert (HEn : E - e = Zdigits2 m - 53) by lia.
  assert (Hlow : 2 ^ 52 <= M).
  { apply Z.le_trans with (m / 2 ^ (E - e)); [|apply round_shift_bounds].
    rewrite HEn.
    apply Z.div_le_lower_bound; [apply Z.pow_pos_nonneg; lia|].
    rewrite Z.mul_comm, <- Z.pow_add_r by lia.
    replace (52 + (Zdigits2 m - 53)) with (Zdigits2 m - 1) by lia.
    assumption. }
  rewrite Hr. destruct (Z.eqb_spec M (2 ^ 53)) as [Heq|Hne].
  - exists (2 ^ 52), (E + 1). split; [reflexivity|]. split; lia.
  - exists M, E. split; [reflexivity|]. split; lia.
Qed.

(** The quotient: mantissa and exponent of the rounded result. *)
Lemma round_quotient_normal (N D e : Z) :
  0 < D -> 2 ^ 52 <= N / D ->
  exists M E,
    round_quotient N D e = (M, E)
    /\ 2 ^ 52 <= M < 2 ^ 53
    /\ e + (Zdigits2 (N / D) - 53) <= E <= e + (Zdigits2 (N / D) - 53) + 1.
Proof.
  intros HD Hq. unfold round_quotient.
  destruct (Zdigits2_bounds (N / D) ltac:(lia)) as [Hd [Hlo Hhi]].
  assert (Hd53 : 52 < Zdigits2 (N / D)) by (apply Zdigits2_ge; lia).
  set (d := Zdigits2 (N / D)) in *. set (k := d - 53).
  assert (H2k : 0 < 2 ^ k) by (apply Z.pow_pos_nonneg; lia).
  pose proof (round_div_bounds N (D * 2 ^ k)) as Hb.
  rewrite <- Z.div_div in Hb by lia.
  assert (Hql : 2 ^ 52 <= N / D / 2 ^ k).
  { apply Z.div_le_lower_bound; [assumption|].
    rewrite <- Z.pow_add_r by lia.
    replace (k + 52) with (d - 1) by lia. assumption. }
  assert (Hqh : N / D / 2 ^ k < 2 ^ 53).
  { apply Z.div_lt_upper_bound; [assumption|].
    rewrite <- Z.pow_add_r by lia.
    replace (k + 53) with d by lia. assumption. }
  destruct (Z.eqb_spec (round_div N (D * 2 ^ k)) (2 ^ 53)) as [Heq|Hne].
  - exists (2 ^ 52), (e + k + 1). split; [reflexivity|]. split; lia.
  - exists (round_div N (D * 2 ^ k)), (e + k).
    split; [reflexivity|]. split; lia.
Qed.

End NormalRange.

Section QuotientMonotone.

(** Rounding preserves the order of the exact quotients [(N / D) * 2^e];
    the numerators are compared on a common scale [2^c]. *)
Lemma round_quotient_mono (N1 e1 N2 e2 D c : Z) :
  0 < D ->
  2 ^ 52 <= N1 / D -> 2 ^ 52 <= N2 / D ->
  c <= e1 -> c <= e2 ->
  N1 * 2 ^ (e1 - c) <= N2 * 2 ^ (e2 - c) ->
  leb (pack false (round_quotient N1 D e1))
      (pack false (round_quotient N2 D e2)) = true.
Proof.
  intros HD Hq1 Hq2 Hc1 Hc2 Hle. unfold round_quotient.
  destruct (Zdigits2_bounds (N1 / D) ltac:(lia)) as [_ [Hlo1 Hhi1]].
  destruct (Zdigits2_bounds (N2 / D) ltac:(lia)) as [_ [Hlo2 Hhi2]].
  assert (Hd1 : 52 < Zdigits2 (N1 / D)) by (apply Zdigits2_ge; lia).
  assert (Hd2 : 52 < Zdigits2 (N2 / D)) by (apply Zdigits2_ge; lia).
  set (d1 := Zdigits2 (N1 / D)) in *. set (d2 := Zdigits2 (N2 / D)) in *.
  set (k1 := d1 - 53). set (k2 := d2 - 53).
  assert (Hk1 : 0 < 2 ^ k1) by (apply Z.pow_pos_nonneg; lia).
  assert (Hk2 : 0 < 2 ^ k2) by (apply Z.pow_pos_nonneg; lia).
  set (M1 := round_div N1 (D * 2 ^ k1)).
  set (M2 := round_div N2 (D * 2 ^ k2)).
  (* the numerators between powers of two *)
  assert (HN1 : 2 ^ (d1 - 1) * D <= N1).
  { pose proof (Z.mul_div_le N1 D HD). nia. }
  assert (HN2 : N2 < 2 ^ d2 * D).
  { pose proof (Z.mod_pos_bound N2 D HD).
    pose proof (Z.div_mod N2 D ltac:(lia)). nia. }
  assert (Hmag : d1 + e1 <= d2 + e2).
  { assert (Hpow : 2 ^ (d1 - 1 + (e1 - c)) * D < 2 ^ (d2 + (e2 - c)) * D).
    { rewrite !Z.pow_add_r by lia.
      assert (0 < 2 ^ (e1 - c)) by (apply Z.pow_pos_nonneg; lia).
      assert (0 < 2 ^ (e2 - c)) by (apply Z.pow_pos_nonneg; lia).
      nia. }
    apply Z.mul_lt_mono_pos_r in Hpow; [|assumption].
    apply Z.pow_lt_mono_r_iff in Hpow; lia. }
  (* bounds of the rounded mantissas *)
  assert (HM1 : 2 ^ 52 <= M1 <= 2 ^ 53).
  { pose proof (round_div_bounds N1 (D * 2 ^ k1)) as Hb. fold M1 in Hb.
    rewrite <- Z.div_div in Hb by lia.
    assert (2 ^ 52 <= N1 / D / 2 ^ k1).
    { apply Z.div_le_lower_bound; [assumption|].
      rewrite <- Z.pow_add_r by lia.
      replace (k1 + 52) with (d1 - 1) by (subst k1; lia). assumption. }
    assert (N1 / D / 2 ^ k1 < 2 ^ 53).
    { apply Z.div_lt_upper_bound; [assumption|].
      rewrite <- Z.pow_add_r by lia.
      replace (k1 + 53) with d1 by (subst k1; lia). assumption. }
    lia. }
  assert (HM2 : 2 ^ 52 <= M2 <= 2 ^ 53).
  { pose proof (round_div_bounds N2 (D * 2 ^ k2)) as Hb. fold M2 in Hb.
    rewrite <- Z.div_div in Hb by lia.
    assert (2 ^ 52 <= N2 / D / 2 ^ k2).
    { apply Z.div_le_lower_bound; [assumption|].
      rewrite <- Z.pow_add_r by lia.
      replace (k2 + 52) with (d2 - 1) by (subst k2; lia). assumption. }
    assert (N2 / D / 2 ^ k2 < 2 ^ 53).
    { apply Z.div_lt_upper_bound; [assumption|].
      rewrite <- Z.pow_add_r by lia.
      replace (k2 + 53) with d2 by (subst k2; lia). assumption. }
    lia. }
  destruct (Z.eq_dec (e1 + k1) (e2 + k2)) as [Heq|Hne].
  - assert (HM : M1 <= M2).
    { subst M1 M2.
      assert (0 < 2 ^ (e1 - c)) by (apply Z.pow_pos_nonneg; lia).
      assert (0 < 2 ^ (e2 - c)) by (apply Z.pow_pos_nonneg; lia).
      rewrite <- (round_div_scale N1 (D * 2 ^ k1) (2 ^ (e1 - c)))
        by (try apply Z.mul_pos_pos; lia).
      rewrite <- (round_div_scale N2 (D * 2 ^ k2) (2 ^ (e2 - c)))
        by (try apply Z.mul_pos_pos; lia).
      rewrite <- !Z.mul_assoc, <- !Z.pow_add_r by (subst k1 k2; lia).
      replace (k2 + (e2 - c)) with (k1 + (e1 - c)) by lia.
      apply round_div_mono; [|assumption].
      apply Z.mul_pos_pos; [assumption|].
      apply Z.pow_pos_nonneg; subst k1; lia. }
    destruct (Z.eqb_spec M1 (2 ^ 53)); destruct (Z.eqb_spec M2 (2 ^ 53));
      apply pack_leb; lia.
  - destruct (Z.eqb_spec M1 (2 ^ 53)); destruct (Z.eqb_spec M2 (2 ^ 53));
      apply pack_leb; subst k1 k2; lia.
Qed.

(** The division of two normal positive [double]s, in the normal range,
    as a rounded quotient of integers. *)
Lemma div_round_quotient (mx : positive) (ex : Z) (my : positive) (ey : Z) :
  Z.pos (digits2_pos mx) = 53 ->
  Z.pos (digits2_pos my) = 53 ->
  -1074 <= ex - ey - 53 ->
  div (S754_finite false mx ex) (S754_finite false my ey)
  = pack false (round_quotient (Z.pos mx * 2 ^ 53) (Z.pos my) (ex - ey - 53))
  /\ 2 ^ 52 <= Z.pos mx * 2 ^ 53 / Z.pos my < 2 ^ 54.
Proof.
  intros Hdx Hdy Hlo.
  pose proof (digits2_pos_bounds mx) as Hbx. rewrite Hdx in Hbx.
  pose proof (digits2_pos_bounds my) as Hby. rewrite Hdy in Hby.
  assert (Hq : 2 ^ 52 <= Z.pos mx * 2 ^ 53 / Z.pos my < 2 ^ 54).
  { split.
    - apply Z.div_le_lower_bound; [lia|]. nia.
    - apply Z.div_lt_upper_bound; [lia|]. nia. }
  split; [|exact Hq].
  unfold div. cbn [SFdiv xorb]. unfold SFdiv_core_binary.
  cbn [Zdigits2]. rewrite Hdx, Hdy, fexp_binary64.
  replace (Z.min (Z.max (53 + ex - (53 + ey) - 53) (-1074)) (ex - ey))
    with (ex - ey - 53) by lia.
  replace (ex - ey - (ex - ey - 53)) with 53 by lia.
  rewrite Z.shiftl_mul_pow2 by lia.
  set (X := Z.pos mx * 2 ^ 53) in *.
  assert (Hde : Z.div_eucl X (Z.pos my) = (X / Z.pos my, X mod Z.pos my)).
  { unfold Z.div, Z.modulo. destruct (Z.div_eucl X (Z.pos my)); reflexivity. }
  rewrite Hde.
  apply binary_round_aux_located; [lia | exact Hq | exact Hlo].
Qed.

(** Division by a normal positive [double] preserves the order of normal
    positive [double]s, as long as the quotients stay in the normal
    range. *)
Lemma div_mono_normal (m1 : positive) (e1 : Z) (m2 : positive) (e2 : Z)
                      (my : positive) (ey : Z) :
  Z.pos (digits2_pos m1) = 53 ->
  Z.pos (digits2_pos m2) = 53 ->
  Z.pos (digits2_pos my) = 53 ->
  -1074 <= e1 -> -1074 <= e2 ->
  -1074 <= e1 - ey - 53 ->
  -1074 <= e2 - ey - 53 ->
  leb (S754_finite false m1 e1) (S754_finite false m2 e2) = true ->
  leb (div (S754_finite false m1 e1) (S754_finite false my ey))
      (div (S754_finite false m2 e2) (S754_finite false my ey)) = true.
Proof.
  intros Hd1 Hd2 Hdy He1 He2 Hl1 Hl2 Hle.
  destruct (div_round_quotient m1 e1 my ey Hd1 Hdy Hl1) as [-> [Hq1 _]].
  destruct (div_round_quotient m2 e2 my ey Hd2 Hdy Hl2) as [-> [Hq2 _]].
  assert (Hc1 : canonical_mantissa prec emax m1 e1 = true).
  { unfold canonical_mantissa. rewrite Hd1, fexp_binary64.
    apply Z.eqb_eq. lia. }
  assert (Hc2 : canonical_mantissa prec emax m2 e2 = true).
  { unfold canonical_mantissa. rewrite Hd2, fexp_binary64.
    apply Z.eqb_eq. lia. }
  pose proof (leb_finite_value m1 e1 m2 e2 Hc1 Hc2 Hle) as Hval.
  apply (round_quotient_mono _ _ _ _ _ (Z.min e1 e2 - ey - 53));
    try assumption; try lia.
  replace (e1 - ey - 53 - (Z.min e1 e2 - ey - 53)) with (e1 - Z.min e1 e2)
    by lia.
  replace (e2 - ey - 53 - (Z.min e1 e2 - ey - 53)) with (e2 - Z.min e1 e2)
    by lia.
  nia.
Qed.

End QuotientMonotone.

(** ** The seconds and the Joules that [main] computes *)

Section ReportedValues.

(** The conversion of a positive integer as a rounding of [n * 2^s]. *)
Lemma of_Z_round (n : Z) :
  0 < n ->
  let s := Z.max 0 (53 - Zdigits2 n) in
  of_Z n = pack false (round_exact (n * 2 ^ s) (- s))
  /\ Zdigits2 (n * 2 ^ s) + - s = Zdigits2 n
  /\ - s <= fexp prec emax (Zdigits2 (n * 2 ^ s) + - s).
Proof.
  intros Hn s. destruct n as [|p|p]; try lia.
  destruct (Zdigits2_bounds (Z.pos p) Hn) as [Hd0 _].
  assert (Hdig : Zdigits2 (Z.pos p * 2 ^ s) + - s = Zdigits2 (Z.pos p)).
  { rewrite Zdigits2_mul_pow2 by lia. lia. }
  split; [|split; [exact Hdig|]].
  - unfold of_Z, binary_normalize, binary_round.
    change (Z.pos (digits2_pos p)) with (Zdigits2 (Z.pos p)).
    rewrite Z.add_0_r, fexp_binary64.
    destruct (Z.le_gt_cases (Zdigits2 (Z.pos p)) 53) as [Hle|Hgt].
    + replace (Z.max (Zdigits2 (Z.pos p) - 53) (-1074))
        with (Zdigits2 (Z.pos p) - 53) by lia.
      destruct (shl_align_value p 0 (Zdigits2 (Z.pos p) - 53))
        as [q [Hal Hq]]; [lia|].
      rewrite Hal, binary_round_aux_exact by lia.
      rewrite Hq. subst s.
      replace (Z.max 0 (53 - Zdigits2 (Z.pos p)))
        with (0 - (Zdigits2 (Z.pos p) - 53)) by lia.
      do 2 f_equal. lia.
    + replace (Z.max (Zdigits2 (Z.pos p) - 53) (-1074))
        with (Zdigits2 (Z.pos p) - 53) by lia.
      unfold shl_align.
      destruct (Zdigits2 (Z.pos p) - 53 - 0) as [|d|d] eqn:Hd; try lia.
      rewrite binary_round_aux_exact by lia.
      subst s. replace (Z.max 0 (53 - Zdigits2 (Z.pos p))) with 0 by lia.
      rewrite Z.pow_0_r, Z.mul_1_r. reflexivity.
  - rewrite Hdig, fexp_binary64. subst s. lia.
Qed.

(** The conversion of a positive 64-bit integer is a normal [double]. *)
Lemma of_Z_normal (n : Z) :
  0 < n < 2 ^ 64 ->
  exists (m : positive) (e : Z),
    of_Z n = S754_finite false m e
    /\ Z.pos (digits2_pos m) = 53
    /\ -52 <= e <= 12
    /\ valid (S754_finite false m e) = true.
Proof.
  intros [Hn Hlt].
  destruct (of_Z_round n Hn) as [Hconv [Hdig Hexp]].
  destruct (Zdigits2_bounds n Hn) as [Hd0 _].
  assert (Hd : Zdigits2 n <= 64) by (apply Zdigits2_le; lia).
  set (s := Z.max 0 (53 - Zdigits2 n)) in *.
  assert (H2s : 0 < 2 ^ s) by (apply Z.pow_pos_nonneg; lia).
  destruct (round_exact_normal (n * 2 ^ s) (- s)) as [M [E [Hr [HM HE]]]];
    [nia | exact Hexp | lia |].
  destruct (pack_normal false M E HM) as [m [Hp [_ [Hdm Hv]]]]; [lia|].
  exists m, E. rewrite Hconv, Hr.
  split; [exact Hp|]. split; [exact Hdm|]. split; [lia | exact Hv].
Qed.

Lemma of_Z_mono (n1 n2 : Z) :
  0 < n1 -> n1 <= n2 -> leb (of_Z n1) (of_Z n2) = true.
Proof.
  intros Hn1 Hle.
  destruct (of_Z_round n1 Hn1) as [-> [_ Hexp1]].
  destruct (of_Z_round n2 ltac:(lia)) as [-> [_ Hexp2]].
  set (s1 := Z.max 0 (53 - Zdigits2 n1)) in *.
  set (s2 := Z.max 0 (53 - Zdigits2 n2)) in *.
  assert (H1 : 0 < 2 ^ s1) by (apply Z.pow_pos_nonneg; lia).
  assert (H2 : 0 < 2 ^ s2) by (apply Z.pow_pos_nonneg; lia).
  apply (round_exact_mono _ _ _ _ (- Z.max s1 s2));
    try assumption; try lia; try nia.
  rewrite <- !Z.mul_assoc, <- !Z.pow_add_r by lia.
  replace (s1 + (- s1 - - Z.max s1 s2)) with (Z.max s1 s2) by lia.
  replace (s2 + (- s2 - - Z.max s1 s2)) with (Z.max s1 s2) by lia.
  apply Z.mul_le_mono_nonneg_r; [apply Z.pow_nonneg; lia | assumption].
Qed.

(** The seconds for a positive tick count: a normal positive [double]. *)
Lemma seconds_normal (n : Z) :
  0 < n < 2 ^ 64 ->
  exists (m : positive) (e : Z),
    div (of_Z n) ticksPerSecond = S754_finite false m e
    /\ Z.pos (digits2_pos m) = 53
    /\ -76 <= e <= -10
    /\ valid (S754_finite false m e) = true.
Proof.
  intros Hn.
  destruct (of_Z_normal n Hn) as [mx [ex [-> [Hdx [Hex _]]]]].
  change ticksPerSecond with (S754_finite false 5368709120000000 (-29)).
  destruct (div_round_quotient mx ex 5368709120000000 (-29) Hdx eq_refl)
    as [-> Hq]; [lia|].
  set (N := Z.pos mx * 2 ^ 53) in *. set (D := Z.pos 5368709120000000) in *.
  destruct (round_quotient_normal N D (ex - -29 - 53))
    as [M [E [Hr [HM HE]]]]; [reflexivity | lia |].
  assert (Zdigits2 (N / D) <= 54) by (apply Zdigits2_le; lia).
  assert (52 < Zdigits2 (N / D)) by (apply Zdigits2_ge; lia).
  destruct (pack_normal false M E HM) as [m [Hp [_ [Hdm Hv]]]]; [lia|].
  exists m, E. rewrite Hr.
  split; [exact Hp|]. split; [exact Hdm|]. split; [lia | exact Hv].
Qed.

(** The Joules for such seconds: again a normal positive [double]. *)
Lemma joules_normal (m : positive) (e : Z) :
  Z.pos (digits2_pos m) = 53 ->
  -76 <= e <= -10 ->
  exists (M : positive) (E : Z),
    energiaJoules (S754_finite false m e) = S754_finite false M E
    /\ -71 <= E <= -3
    /\ valid (S754_finite false M E) = true.
Proof.
  intros Hd He. unfold energiaJoules, energy.
  change potenciaEstimadaW with (S754_finite false 7036874417766400 (-47)).
  rewrite mul_finite_pack. cbn [xorb].
  assert (Hc : canonical_mantissa prec emax m e = true).
  { unfold canonical_mantissa. rewrite Hd, fexp_binary64.
    apply Z.eqb_eq. lia. }
  pose proof (product_exponent m e 7036874417766400 (-47) Hc eq_refl) as Hexp.
  pose proof (digits2_pos_bounds m) as Hbm. rewrite Hd in Hbm.
  set (P := Z.pos (m * 7036874417766400)) in *.
  assert (HP : Z.pos m * 7036874417766400 = P) by reflexivity.
  assert (Hdl : 104 < Zdigits2 P).
  { apply Zdigits2_ge; [lia|].
    change (2 ^ 104) with (2 ^ 52 * 2 ^ 52). nia. }
  assert (Hdh : Zdigits2 P <= 106).
  { apply Zdigits2_le; [lia|lia|].
    change (2 ^ 106) with (2 ^ 53 * 2 ^ 53). nia. }
  destruct (round_exact_normal P (e + -47)) as [M0 [E [Hr [HM HE]]]];
    [lia | exact Hexp | lia |].
  destruct (pack_normal false M0 E HM) as [M [Hp [_ [_ Hv]]]]; [lia|].
  exists M, E. rewrite Hr.
  split; [exact Hp|]. split; [lia | exact Hv].
Qed.

End ReportedValues.

Section SecondsAndJoules.

(** The two values for a tick sum: both zero, or both normal and
    positive. *)
Lemma seconds_and_joules (k u : Z) :
  (add_ULONGLONG k u = 0
   /\ totalTimeSeconds k u = zero
   /\ energiaJoules (totalTimeSeconds k u) = zero)
  \/ (0 < add_ULONGLONG k u
      /\ exists m e M E,
           totalTimeSeconds k u = S754_finite false m e
           /\ Z.pos (digits2_pos m) = 53 /\ -76 <= e <= -10
           /\ valid (S754_finite false m e) = true
           /\ energiaJoules (totalTimeSeconds k u) = S754_finite false M E
           /\ valid (S754_finite false M E) = true).
Proof.
  unfold totalTimeSeconds.
  assert (Hn : 0 <= add_ULONGLONG k u < 2 ^ 64)
    by (apply Z.mod_pos_bound; lia).
  destruct (Z.eq_dec (add_ULONGLONG k u) 0) as [H0|H0].
  - left. rewrite H0. repeat split.
  - right. split; [lia|].
    destruct (seconds_normal (add_ULONGLONG k u)) as [m [e [Ht [Hd [He Hv]]]]];
      [lia|].
    destruct (joules_normal m e Hd He) as [M [E [Hj [_ Hvj]]]].
    exists m, e, M, E. rewrite Ht.
    repeat split; try assumption; lia.
Qed.

(** Both are finite and not negative. *)
Lemma seconds_and_joules_finite (k u : Z) :
  (valid (totalTimeSeconds k u) = true
   /\ is_finite (totalTimeSeconds k u) = true
   /\ leb zero (totalTimeSeconds k u) = true)
  /\ (valid (energiaJoules (totalTimeSeconds k u)) = true
      /\ is_finite (energiaJoules (totalTimeSeconds k u)) = true
      /\ leb zero (energiaJoules (totalTimeSeconds k u)) = true).
Proof.
  destruct (seconds_and_joules k u)
    as [[_ [Ht Hj]]|[_ [m [e [M [E [Ht [_ [_ [Hv [Hj Hvj]]]]]]]]]]];
    rewrite Hj, Ht; repeat split; assumption.
Qed.

End SecondsAndJoules.

(** X6. [main] never prints a number that is NaN, infinite or negative:
    whatever the system reports, every number in the output of a run is a
    finite [double] that is at least zero. *)
Theorem printed_numbers_finite
  (stack : ULARGE_INTEGER) (w : World) (a : Argv) (d : double) :
  In d (printed_doubles (trace_of (run w (main stack a)))) ->
  valid d = true /\ is_finite d = true /\ leb zero d = true.
Proof.
  run_cases_of stack w a; cbn; try tauto.
  intros [<-|[<-|[]]]; apply seconds_and_joules_finite.
Qed.

Lemma printed_numbers_finite_witness :
  let a := mkArgv "consumo.exe" ["notepad.exe"] in
  let pt := mkProcessTimes (mkFILETIME 5 0) (mkFILETIME 9 0)
              (mkFILETIME 0xFFFFFFFF 0xFFFFFFFF)
              (mkFILETIME 0xFFFFFFFE 0xFFFFFFFF) in
  let w := mkWorld (fun _ _ => true) true (Some pt) 0
             (fun _ => Some "Acceso denegado.") in
  let d := energiaJoules (totalTimeSeconds (2 ^ 64 - 1) (2 ^ 64 - 2)) in
  In d (printed_doubles (trace_of (run w (main 0 a))))
  /\ valid d = true /\ is_finite d = true /\ leb zero d = true.
Proof.
  intros a pt w d.
  assert (H : In d (printed_doubles (trace_of (run w (main 0 a)))))
    by (right; left; reflexivity).
  split; [exact H|].
  exact (printed_numbers_finite 0 w a d H).
Defined.

(** X7. The seconds, and the Joules, are zero exactly when the 64-bit sum
    of the two tick counts is zero; any other sum, even a single tick,
    gives strictly positive seconds and Joules. *)
Theorem seconds_zero_iff (k u : Z) :
  let t := totalTimeSeconds k u in
  let j := energiaJoules t in
  (t = zero <-> add_ULONGLONG k u = 0)
  /\ (j = zero <-> add_ULONGLONG k u = 0)
  /\ (add_ULONGLONG k u <> 0 -> ltb zero t = true /\ ltb zero j = true).
Proof.
  intros t j. subst t j.
  destruct (seconds_and_joules k u)
    as [[H0 [Ht Hj]]|[Hpos [m [e [M [E [Ht [_ [_ [_ [Hj _]]]]]]]]]]];
    rewrite Hj, Ht.
  - rewrite H0. repeat split; intros; try reflexivity; lia.
  - repeat split; intros; try discriminate; try lia; reflexivity.
Qed.

Lemma seconds_zero_iff_witness :
  add_ULONGLONG 1 0 <> 0
  /\ ltb zero (totalTimeSeconds 1 0) = true
  /\ ltb zero (energiaJoules (totalTimeSeconds 1 0)) = true.
Proof.
  assert (H : add_ULONGLONG 1 0 <> 0) by discriminate.
  split; [exact H|].
  exact (proj2 (proj2 (seconds_zero_iff 1 0)) H).
Defined.

(** X8. More CPU time never gives a smaller figure: when the tick sums
    do not wrap, a run whose kernel and user ticks add up to at least as
    much reports at least as many seconds and at least as many Joules. *)
Theorem seconds_and_joules_monotone (k1 u1 k2 u2 : Z) :
  0 <= k1 + u1 ->
  k1 + u1 <= k2 + u2 ->
  k2 + u2 < 2 ^ 64 ->
  leb (totalTimeSeconds k1 u1) (totalTimeSeconds k2 u2) = true
  /\ leb (energiaJoules (totalTimeSeconds k1 u1))
         (energiaJoules (totalTimeSeconds k2 u2)) = true.
Proof.
  intros H0 Hle Hlt.
  assert (Hs1 : add_ULONGLONG k1 u1 = k1 + u1)
    by (apply Z.mod_small; lia).
  assert (Hs2 : add_ULONGLONG k2 u2 = k2 + u2)
    by (apply Z.mod_small; lia).
  assert (Hsec : leb (totalTimeSeconds k1 u1) (totalTimeSeconds k2 u2) = true).
  { destruct (Z.eq_dec (k1 + u1) 0) as [Hz|Hnz].
    - destruct (seconds_and_joules k1 u1) as [[_ [Ht1 _]]|[Hp1 _]]; [|lia].
      rewrite Ht1. apply seconds_and_joules_finite.
    - unfold totalTimeSeconds. rewrite Hs1, Hs2.
      destruct (of_Z_normal (k1 + u1)) as [x1 [f1 [Hx1 [Hdx1 [Hf1 _]]]]];
        [lia|].
      destruct (of_Z_normal (k2 + u2)) as [x2 [f2 [Hx2 [Hdx2 [Hf2 _]]]]];
        [lia|].
      pose proof (of_Z_mono (k1 + u1) (k2 + u2) ltac:(lia) Hle) as Hmono.
      rewrite Hx1, Hx2 in *.
      change ticksPerSecond with (S754_finite false 5368709120000000 (-29)).
      apply div_mono_normal; try assumption; try reflexivity; lia. }
  split; [exact Hsec|].
  unfold energiaJoules.
  change potenciaEstimadaW with (S754_finite false 7036874417766400 (-47)).
  apply energy_mono_finite_factor;
    [ reflexivity
    | apply seconds_and_joules_finite
    | apply seconds_and_joules_finite
    | apply seconds_and_joules_finite
    | exact Hsec ].
Qed.

Lemma seconds_and_joules_monotone_witness :
  0 <= 1 + 2
  /\ 1 + 2 <= 2 ^ 63 + 5
  /\ 2 ^ 63 + 5 < 2 ^ 64
  /\ leb (totalTimeSeconds 1 2) (totalTimeSeconds (2 ^ 63) 5) = true
  /\ leb (energiaJoules (totalTimeSeconds 1 2))
         (energiaJoules (totalTimeSeconds (2 ^ 63) 5)) = true.
Proof.
  assert (H0 : 0 <= 1 + 2) by lia.
  assert (H1 : 1 + 2 <= 2 ^ 63 + 5) by lia.
  assert (H2 : 2 ^ 63 + 5 < 2 ^ 64) by lia.
  split; [exact H0|]. split; [exact H1|]. split; [exact H2|].
  exact (seconds_and_joules_monotone 1 2 (2 ^ 63) 5 H0 H1 H2).
Defined.

(** ** Exact results *)

Section ExactResults.

Lemma round_shift_exact (a n : Z) : 0 <= n -> round_shift (a * 2 ^ n) n = a.
Proof.
  intros Hn. unfold round_shift.
  assert (0 < 2 ^ n) by (apply Z.pow_pos_nonneg; lia).
  rewrite Z.mod_mul, Z.div_mul by lia.
  destruct (Z.compare_spec (2 * 0) (2 ^ n)); [lia|reflexivity|lia].
Qed.

Lemma round_div_exact (a D : Z) : 0 < D -> round_div (a * D) D = a.
Proof.
  intros HD. unfold round_div.
  rewrite Z.mod_mul, Z.div_mul by lia.
  destruct (Z.compare_spec (2 * 0) D); [lia|reflexivity|lia].
Qed.

Lemma Zdigits2_product (a b : Z) :
  0 < a -> 0 < b ->
  Zdigits2 a + Zdigits2 b - 1 <= Zdigits2 (a * b) <= Zdigits2 a + Zdigits2 b.
Proof.
  intros Ha Hb.
  destruct (Zdigits2_bounds a Ha) as [Hda [Hla Hha]].
  destruct (Zdigits2_bounds b Hb) as [Hdb [Hlb Hhb]].
  split.
  - assert (Zdigits2 a + Zdigits2 b - 2 < Zdigits2 (a * b)); [|lia].
    apply Zdigits2_ge; [nia|].
    replace (Zdigits2 a + Zdigits2 b - 2)
      with ((Zdigits2 a - 1) + (Zdigits2 b - 1)) by lia.
    rewrite Z.pow_add_r by lia.
    apply Z.mul_le_mono_nonneg; try assumption; apply Z.pow_nonneg; lia.
  - apply Zdigits2_le; [nia | lia |].
    rewrite Z.pow_add_r by lia. nia.
Qed.

(** A 53-bit mantissa is determined by its value. *)
Lemma finite_eq (m1 m2 : positive) (e1 e2 : Z) :
  Z.pos m1 = Z.pos m2 -> e1 = e2 ->
  S754_finite false m1 e1 = S754_finite false m2 e2.
Proof. intros Hm ->. injection Hm as ->. reflexivity. Qed.

(** The product of two integers is exact as long as it stays below
    [2^53]. *)
Lemma mul_of_Z_exact (a b : Z) :
  0 < a -> 0 < b -> a * b < 2 ^ 53 ->
  mul (of_Z a) (of_Z b) = of_Z (a * b).
Proof.
  intros Ha Hb Hab.
  destruct (of_Z_exact a ltac:(nia)) as [ma [-> [Hma Hda]]].
  destruct (of_Z_exact b ltac:(nia)) as [mb [-> [Hmb Hdb]]].
  destruct (of_Z_exact (a * b) ltac:(nia)) as [mab [-> [Hmab _]]].
  pose proof (Zdigits2_product a b Ha Hb) as Hdp.
  destruct (Zdigits2_bounds a Ha) as [Hda0 _].
  destruct (Zdigits2_bounds b Hb) as [Hdb0 _].
  assert (Hdab : Zdigits2 (a * b) <= 53) by (apply Zdigits2_le; nia).
  set (da := Zdigits2 a) in *. set (db := Zdigits2 b) in *.
  set (dab := Zdigits2 (a * b)) in *.
  rewrite mul_finite_pack. cbn [xorb].
  assert (Hca : canonical_mantissa prec emax ma (da - 53) = true).
  { unfold canonical_mantissa. rewrite Hda, fexp_binary64.
    apply Z.eqb_eq. lia. }
  assert (Hcb : canonical_mantissa prec emax mb (db - 53) = true).
  { unfold canonical_mantissa. rewrite Hdb, fexp_binary64.
    apply Z.eqb_eq. lia. }
  pose proof (product_exponent ma (da - 53) mb (db - 53) Hca Hcb) as Hexp.
  set (n := dab + 53 - da - db).
  assert (HP : Z.pos (ma * mb) = a * b * 2 ^ (53 - dab) * 2 ^ n).
  { rewrite Pos2Z.inj_mul, Hma, Hmb.
    rewrite <- (Z.mul_assoc (a * b)), <- Z.pow_add_r by (subst n; lia).
    replace (53 - dab + n) with ((53 - da) + (53 - db)) by (subst n; lia).
    rewrite Z.pow_add_r by lia. ring. }
  assert (HdP : Zdigits2 (Z.pos (ma * mb)) = 53 + n).
  { rewrite HP, !Zdigits2_mul_pow2; subst n; try lia; try nia.
    all: apply Z.mul_pos_pos; [nia | apply Z.pow_pos_nonneg; lia]. }
  destruct (round_exact_canonical (Z.pos (ma * mb)) (da - 53 + (db - 53)))
    as [_ Hr]; [lia | exact Hexp |].
  rewrite Hr, HdP, fexp_binary64.
  replace (Z.max (53 + n + (da - 53 + (db - 53)) - 53) (-1074))
    with (dab - 53) by (subst n; lia).
  replace (dab - 53 - (da - 53 + (db - 53))) with n by (subst n; lia).
  rewrite HP, round_shift_exact by (subst n; lia).
  rewrite <- Hmab.
  pose proof (digits2_pos_bounds mab) as Hb53.
  destruct (of_Z_exact (a * b) ltac:(nia)) as [m' [Hm' [Hv' Hd']]].
  assert (Hmm : Z.pos m' = Z.pos mab) by (rewrite Hv', Hmab; reflexivity).
  injection Hmm as Hmm. subst m'. rewrite Hd' in Hb53.
  destruct (Z.eqb_spec (Z.pos mab) (2 ^ 53)); [lia|].
  unfold pack. cbn [fst snd].
  destruct (Z.leb_spec (dab - 53) (emax - prec)) as [_|Hbad];
    [reflexivity | change (emax - prec) with 971 in Hbad; lia].
Qed.

(** The quotient of a product by one of its factors is exact. *)
Lemma div_of_Z_exact (s t : Z) :
  0 < s -> 0 < t -> s * t < 2 ^ 53 ->
  div (of_Z (s * t)) (of_Z t) = of_Z s.
Proof.
  intros Hs Ht Hst.
  destruct (of_Z_exact (s * t) ltac:(nia)) as [mn [-> [Hmn Hdn]]].
  destruct (of_Z_exact t ltac:(nia)) as [mt [-> [Hmt Hdt]]].
  destruct (of_Z_exact s ltac:(nia)) as [ms [-> [Hms Hdms]]].
  pose proof (Zdigits2_product s t Hs Ht) as Hdp.
  destruct (Zdigits2_bounds s Hs) as [Hds0 _].
  destruct (Zdigits2_bounds t Ht) as [Hdt0 _].
  assert (Hdn53 : Zdigits2 (s * t) <= 53) by (apply Zdigits2_le; nia).
  set (ds := Zdigits2 s) in *. set (dt := Zdigits2 t) in *.
  set (dn := Zdigits2 (s * t)) in *.
  destruct (div_round_quotient mn (dn - 53) mt (dt - 53) Hdn Hdt)
    as [-> Hq]; [lia|].
  set (k := ds + dt - dn).
  assert (HN : Z.pos mn * 2 ^ 53
               = s * 2 ^ (53 - ds) * (Z.pos mt * 2 ^ k)).
  { rewrite Hmn, Hmt.
    transitivity (s * t * (2 ^ (53 - dn) * 2 ^ 53)); [ring|].
    transitivity (s * t * (2 ^ (53 - ds) * (2 ^ (53 - dt) * 2 ^ k)));
      [|ring].
    rewrite <- !Z.pow_add_r by (subst k; lia).
    do 2 f_equal. subst k. lia. }
  assert (H2k : 0 < 2 ^ k) by (apply Z.pow_pos_nonneg; subst k; lia).
  assert (Hquot : Z.pos mn * 2 ^ 53 / Z.pos mt = s * 2 ^ (53 - ds) * 2 ^ k).
  { rewrite HN.
    replace (s * 2 ^ (53 - ds) * (Z.pos mt * 2 ^ k))
      with (s * 2 ^ (53 - ds) * 2 ^ k * Z.pos mt) by ring.
    apply Z.div_mul. lia. }
  assert (Hdq : Zdigits2 (Z.pos mn * 2 ^ 53 / Z.pos mt) = 53 + k).
  { rewrite Hquot, !Zdigits2_mul_pow2; subst k; try lia.
    all: apply Z.mul_pos_pos; [lia | apply Z.pow_pos_nonneg; lia]. }
  unfold round_quotient. rewrite Hdq.
  replace (53 + k - 53) with k by lia.
  rewrite HN, round_div_exact by (apply Z.mul_pos_pos; lia).
  rewrite <- Hms.
  pose proof (digits2_pos_bounds ms) as Hb53. rewrite Hdms in Hb53.
  destruct (Z.eqb_spec (Z.pos ms) (2 ^ 53)); [lia|].
  unfold pack. cbn [fst snd].
  replace (dn - 53 - (dt - 53) - 53 + k) with (ds - 53) by (subst k; lia).
  destruct (Z.leb_spec (ds - 53) (emax - prec)) as [_|Hbad];
    [reflexivity | change (emax - prec) with 971 in Hbad; lia].
Qed.

End ExactResults.

(** X9. Whole seconds are exact: when the two tick counts add up to
    exactly [s] seconds ([s * 10^7] ticks, below [2^53]), the seconds
    computed are the [double] [s] itself and the Joules are exactly
    [50 * s]. *)
Theorem whole_seconds_exact (k u s : Z) :
  0 <= s ->
  k + u = s * 10 ^ 7 ->
  s * 10 ^ 7 < 2 ^ 53 ->
  totalTimeSeconds k u = of_Z s
  /\ energiaJoules (totalTimeSeconds k u) = of_Z (50 * s).
Proof.
  intros Hs Hsum Hlt.
  assert (Hadd : add_ULONGLONG k u = s * 10 ^ 7).
  { unfold add_ULONGLONG. rewrite Hsum. apply Z.mod_small. lia. }
  assert (Ht : totalTimeSeconds k u = of_Z s).
  { unfold totalTimeSeconds. rewrite Hadd.
    destruct (Z.eq_dec s 0) as [->|Hnz]; [reflexivity|].
    change ticksPerSecond with (of_Z (10 ^ 7)).
    apply div_of_Z_exact; lia. }
  split; [exact Ht|].
  rewrite Ht. unfold energiaJoules, energy.
  destruct (Z.eq_dec s 0) as [->|Hnz]; [reflexivity|].
  change potenciaEstimadaW with (of_Z 50).
  rewrite mul_of_Z_exact by lia. f_equal. ring.
Qed.

Lemma whole_seconds_exact_witness :
  0 <= 3
  /\ 20000000 + 10000000 = 3 * 10 ^ 7
  /\ 3 * 10 ^ 7 < 2 ^ 53
  /\ totalTimeSeconds 20000000 10000000 = of_Z 3
  /\ energiaJoules (totalTimeSeconds 20000000 10000000) = of_Z (50 * 3).
Proof.
  assert (H0 : 0 <= 3) by lia.
  assert (H1 : 20000000 + 10000000 = 3 * 10 ^ 7) by reflexivity.
  assert (H2 : 3 * 10 ^ 7 < 2 ^ 53) by lia.
  split; [exact H0|]. split; [exact H1|]. split; [exact H2|].
  exact (whole_seconds_exact 20000000 10000000 3 H0 H1 H2).
Defined.

(** ** What a run does not depend on *)

(** X10. A run that launches a program depends neither on the name under
    which the tool itself was started ([argv[0]]) nor on what the stack
    held before: every call, every line of output and the exit code are
    the same. *)
Theorem run_independent (stack1 stack2 : ULARGE_INTEGER) (w : World)
                        (name1 name2 : string) (l : list string) :
  l <> [] ->
  run w (main stack1 (mkArgv name1 l)) = run w (main stack2 (mkArgv name2 l)).
Proof.
  intros Hl.
  assert (Hargc : forall name, (2 <= argc (mkArgv name l))%nat).
  { intros name. unfold argc. cbn [args]. destruct l; [congruence|cbn; lia]. }
  assert (Hcmd : commandLineStr (mkArgv name1 l)
                 = commandLineStr (mkArgv name2 l)).
  { rewrite !commandLineStr_joined. reflexivity. }
  assert (Happ : appName (mkArgv name1 l) = appName (mkArgv name2 l))
    by reflexivity.
  run_cases_of stack1 w (mkArgv name1 l);
    [specialize (Hargc name1); lia | rewrite Hcmd, Happ in HC..].
  - rewrite (run_create_failed stack2 w _ text (Hargc name2) HC HM).
    rewrite Hcmd, Happ. reflexivity.
  - rewrite (run_create_undefined stack2 w _ (Hargc name2) HC HM).
    rewrite Hcmd, Happ. reflexivity.
  - rewrite (run_blocked stack2 w _ (Hargc name2) HC HE).
    rewrite Hcmd, Happ. reflexivity.
  - rewrite (run_times_failed stack2 w _ text (Hargc name2) HC HE HT HM).
    rewrite Hcmd, Happ. reflexivity.
  - rewrite (run_times_undefined stack2 w _ (Hargc name2) HC HE HT HM).
    rewrite Hcmd, Happ. reflexivity.
  - rewrite (run_report stack2 w _ pt (Hargc name2) HC HE HT).
    rewrite Hcmd, Happ.
    rewrite (fileTimeToULL_stack_irrelevant stack1 stack2 (ftKernel pt)).
    rewrite (fileTimeToULL_stack_irrelevant stack1 stack2 (ftUser pt)).
    reflexivity.
Qed.

Lemma run_independent_witness :
  let pt := mkProcessTimes (mkFILETIME 5 0) (mkFILETIME 9 0)
              (mkFILETIME 7500000 0) (mkFILETIME 2500000 0) in
  let w := mkWorld (fun _ _ => true) true (Some pt) 0
             (fun _ => Some "Acceso denegado.") in
  ["notepad.exe"; "a b"] <> []
  /\ run w (main 0 (mkArgv "consumo.exe" ["notepad.exe"; "a b"]))
     = run w (main 0xDEADBEEF (mkArgv "C:\tools\c.exe" ["notepad.exe"; "a b"])).
Proof.
  intros pt w.
  assert (H : ["notepad.exe"; "a b"] <> []) by discriminate.
  split; [exact H|].
  exact (run_independent 0 0xDEADBEEF w _ _ _ H).
Defined.
